(** * A round-robin HTTP load balancer (main.go), embedded and verified

    Definitions come first, in the order of the source file:
    - [GoInt]: Go's [int] (two's complement, 32 or 64 bits, silent
      wrap-around);
    - [Effects]: a small state-and-failure monad for code that mutates
      through a pointer receiver, prints, panics, exits or spins;
    - [HTTP]: what the program uses of net/http, net/url and httputil;
    - the [Server] interface, [simpleServer], [LoadBalancer] and the
      functions [NewLoadBalancer], [handleErr], [newSimpleServer],
      [getNextAvailableServer], [serveProxy] and the start of [main];
    - [Goroutines]: the selection code cut at its accesses to the shared
      counter, run under an explicit schedule.
    The proofs follow: facts about [int], the equations of the selection
    code, its runs below the largest int, its runs across the wrap-around,
    sequences of selections, then the properties of the router, and
    further properties of the selection, of [main], of requests served in
    sequence and of goroutines under every schedule. *)

From stdpp Require Import base numbers list strings.
From Stdlib Require Import ZArith Lia.

Local Open Scope Z_scope.

(* ===================================================================== *)
(** ** Go's [int] *)
(* ===================================================================== *)

(** The width of [int] is fixed by the target: 32 bits on 386/arm, 64 bits
    on amd64/arm64. *)
Inductive GOARCH : Set := arch32 | arch64.

Module GoInt.

Definition intSize (arch : GOARCH) : Z :=
  match arch with arch32 => 32 | arch64 => 64 end.

Definition half (arch : GOARCH) : Z := 2 ^ (intSize arch - 1).

Definition maxInt (arch : GOARCH) : Z := half arch - 1.
Definition minInt (arch : GOARCH) : Z := - half arch.

(** Signed overflow does not panic in Go: the result wraps around. *)
Definition wrap (arch : GOARCH) (x : Z) : Z :=
  (x + half arch) `mod` (2 * half arch) - half arch.

(** [x++] *)
Definition incr (arch : GOARCH) (x : Z) : Z := wrap arch (x + 1).

(** [x + k] computed by [k] successive [++]. *)
Definition advance (arch : GOARCH) (x : Z) (k : nat) : Z :=
  Nat.iter k (incr arch) x.

Definition inRange (arch : GOARCH) (x : Z) : Prop :=
  minInt arch <= x <= maxInt arch.

End GoInt.

(* ===================================================================== *)
(** ** Effects: state, output, panics, exit, divergence *)
(* ===================================================================== *)

(** Run-time panics raised by the operations the program uses. *)
Inductive runtimeError : Set :=
| DivideByZero       (* integer divide by zero *)
| IndexOutOfRange    (* index out of range *)
| NilDereference.    (* invalid memory address or nil pointer dereference *)

Module Effects.

(** How a call ends. [Spin] is the answer of a loop that has used up the
    iterations it was given and is still running. *)
Inductive outcome (A : Type) : Type :=
| Ret (a : A)
| Panic (e : runtimeError)
| Exit (code : Z)
| Spin.
Global Arguments Ret {A} a.
Global Arguments Panic {A} e.
Global Arguments Exit {A} code.
Global Arguments Spin {A}.

(** A computation over a mutable state [S]. The state is returned
    whatever the outcome: what was written before a panic stays
    written. *)
Definition M (S A : Type) : Type := S -> S * outcome A.

Definition ret {S A} (a : A) : M S A := fun s => (s, Ret a).

Definition bind {S A B} (m : M S A) (k : A -> M S B) : M S B :=
  fun s =>
    match m s with
    | (s', Ret a) => k a s'
    | (s', Panic e) => (s', Panic e)
    | (s', Exit c) => (s', Exit c)
    | (s', Spin) => (s', Spin)
    end.

Definition panic {S A} (e : runtimeError) : M S A := fun s => (s, Panic e).
Definition exit {S A} (code : Z) : M S A := fun s => (s, Exit code).
Definition spin {S A} : M S A := fun s => (s, Spin).
Definition get {S} : M S S := fun s => (s, Ret s).
Definition modify {S} (f : S -> S) : M S unit := fun s => (f s, Ret tt).

(** Lift a pure partial result into any state. *)
Definition lift {S A} (o : outcome A) : M S A := fun s => (s, o).

(** Run a computation on one component of a pair of states. *)
Definition onFst {S T A} (m : M S A) : M (S * T) A :=
  fun st => let '(s', o) := m st.1 in ((s', st.2), o).
Definition onSnd {S T A} (m : M T A) : M (S * T) A :=
  fun st => let '(t', o) := m st.2 in ((st.1, t'), o).

Global Instance M_ret {S} : MRet (M S) := fun A => @ret S A.
Global Instance M_bind {S} : MBind (M S) := fun A B k m => bind m k.

Definition returned {A} (o : outcome A) : Prop :=
  match o with Ret _ => True | _ => False end.

End Effects.
Import Effects.

(* ===================================================================== *)
(** ** The HTTP collaborators (net/http, net/url, net/http/httputil) *)
(* ===================================================================== *)

Module HTTP.

Record Request : Set := { Method : string; Path : string; Body : string }.
Record Response : Set := { StatusCode : Z; Payload : string }.

(** A response writer is named by the connection it writes to. *)
Definition ResponseWriter : Set := nat.

Record URL : Set := { Scheme : string; Host : string }.

(** What the process does to the outside world. *)
Inductive event : Set :=
| Stdout (text : string)                          (* fmt.Printf *)
| RoundTrip (target : URL) (req : Request)        (* outbound relay *)
| Write (rw : ResponseWriter) (resp : Response).  (* reply to the caller *)

Definition world : Set := list event.

Definition emit (e : event) : M world unit := modify (fun w => w ++ [e]).

Definition StatusBadGateway : Z := 502.

(** httputil.ReverseProxy: the destination and the transport that
    performs the round trip ([None]: the backend is unreachable). *)
Record ReverseProxy : Set := {
  Target : option URL;
  Transport : URL -> Request -> option Response
}.

(** ReverseProxy.ServeHTTP: relay the request; a failed round trip is
    answered with 502 by the default error handler. The round trip is
    recorded with the request as the handler received it: what the proxy's
    director does to the outbound copy (joining the target's path, adding
    X-Forwarded-For) is left out. *)
Definition ServeHTTP (p : ReverseProxy) (rw : ResponseWriter) (r : Request)
  : M world unit :=
  match Target p with
  | None => panic NilDereference
  | Some u =>
      emit (RoundTrip u r) ;;
      match Transport p u r with
      | Some resp => emit (Write rw resp)
      | None => emit (Write rw {| StatusCode := StatusBadGateway; Payload := "" |})
      end
  end.

End HTTP.
Import HTTP.

(* ===================================================================== *)
(** ** main.go *)
(* ===================================================================== *)

(** [type Server interface { Address; IsAlive; Serve }]. Liveness is a
    function of the value: it does not change while a call runs. *)
Class ServerMethods (T : Type) : Type := {
  Address : T -> string;
  IsAlive : T -> bool;
  Serve : T -> ResponseWriter -> Request -> M world unit
}.

Global Arguments Address {T _} _ : simpl never.
Global Arguments IsAlive {T _} _ : simpl never.
Global Arguments Serve {T _} _ _ _ : simpl never.

(** An interface value: a concrete type, its method set and a value. *)
Record Server : Type := asServer {
  dynType : Type;
  dynMethods : ServerMethods dynType;
  dynValue : dynType
}.
Global Arguments asServer {dynType dynMethods} dynValue.

(** Calling a method on an interface value dispatches to the method set. *)
#[global] Instance Server_dispatch : ServerMethods Server := {
  Address s := @Address _ (dynMethods s) (dynValue s);
  IsAlive s := @IsAlive _ (dynMethods s) (dynValue s);
  Serve s := @Serve _ (dynMethods s) (dynValue s)
}.

(** [type simpleServer struct { address; proxy }] *)
Record simpleServer : Set := {
  address : string;
  proxy : ReverseProxy
}.

#[global] Instance simpleServer_methods : ServerMethods simpleServer := {
  Address s := address s;
  IsAlive _ := true;
  Serve s rw r := ServeHTTP (proxy s) rw r
}.

(** A second variant of the interface, whose liveness is a recorded health
    flag. main.go has no such type; it is the test double needed to
    exercise the skip loop of [getNextAvailableServer]. *)
Record probedServer : Set := {
  probedAddress : string;
  healthy : bool
}.

#[global] Instance probedServer_methods : ServerMethods probedServer := {
  Address s := probedAddress s;
  IsAlive s := healthy s;
  Serve s rw r := emit (Write rw {| StatusCode := 200; Payload := probedAddress s |})
}.

(** [type LoadBalancer struct { port; roundRobinCounter; servers }] *)
Record LoadBalancer : Type := {
  port : string;
  roundRobinCounter : Z;
  servers : list Server
}.

Definition NewLoadBalancer (port : string) (servers : list Server) : LoadBalancer :=
  {| port := port; roundRobinCounter := 0; servers := servers |}.

(** [len(s)] *)
Definition len {A} (s : list A) : Z := Z.of_nat (length s).

(** [x % y] on ints: panics on a zero divisor, otherwise the remainder of
    the division truncated towards zero (it has the sign of [x]). *)
Definition goRem (x y : Z) : outcome Z :=
  if y =? 0 then Panic DivideByZero else Ret (Z.rem x y).

(** [s[i]] with its bounds check. *)
Definition sliceIndex {A} (s : list A) (i : Z) : outcome A :=
  if i <? 0 then Panic IndexOutOfRange
  else match s !! Z.to_nat i with
       | Some a => Ret a
       | None => Panic IndexOutOfRange
       end.

Definition newline : string := String (Ascii.ascii_of_nat 10) EmptyString.

(** [handleErr]: a non-nil error is printed and the process exits with
    status 1. An [error] is modelled by the text [%v] prints for it. *)
Definition handleErr (err : option string) : M world unit :=
  match err with
  | Some e => emit (Stdout ("error: " +:+ e +:+ newline)) ;; exit 1
  | None => mret tt
  end.

Section Construction.

(** [url.Parse] and [http.DefaultTransport] belong to the standard
    library; the program is verified for every behaviour they may have. *)
Variable url_Parse : string -> option URL * option string.
Variable DefaultTransport : URL -> Request -> option Response.

Definition NewSingleHostReverseProxy (target : option URL) : ReverseProxy :=
  {| Target := target; Transport := DefaultTransport |}.

Definition newSimpleServer (address : string) : M world simpleServer :=
  let '(serverUrl, err) := url_Parse address in
  handleErr err ;;
  mret {| address := address; proxy := NewSingleHostReverseProxy serverUrl |}.

(** [main], up to the point where it starts to listen: the three upstream
    targets are constructed in order, then the router. *)
Definition main_startup : M world LoadBalancer :=
  s1 ← newSimpleServer "https://www.google.com" ;
  s2 ← newSimpleServer "https://www.bing.com" ;
  s3 ← newSimpleServer "https://www.duckduckgo.com" ;
  let lb := NewLoadBalancer "8080" [asServer s1; asServer s2; asServer s3] in
  emit (Stdout ("serving requests at 'localhost:" +:+ port lb +:+ "'" +:+ newline)) ;;
  mret lb.

End Construction.

Section Router.

Variable arch : GOARCH.

(** [lb.servers[lb.roundRobinCounter%len(lb.servers)]] *)
Definition currentServer : M LoadBalancer Server :=
  lb ← get ;
  i ← lift (goRem (roundRobinCounter lb) (len (servers lb))) ;
  lift (sliceIndex (servers lb) i).

(** [lb.roundRobinCounter++] *)
Definition bumpCounter : M LoadBalancer unit :=
  modify (fun lb => {| port := port lb;
                       roundRobinCounter := GoInt.incr arch (roundRobinCounter lb);
                       servers := servers lb |}).

(** The [for !server.IsAlive() { ... }] loop, given [fuel] iterations. *)
Fixpoint skipDead (fuel : nat) (server : Server) : M LoadBalancer Server :=
  if IsAlive server then mret server
  else match fuel with
       | O => spin
       | S fuel' =>
           bumpCounter ;;
           server' ← currentServer ;
           skipDead fuel' server'
       end.

Definition getNextAvailableServer (fuel : nat) : M LoadBalancer Server :=
  server ← currentServer ;
  server ← skipDead fuel server ;
  bumpCounter ;;
  mret server.

Definition serveProxy (fuel : nat) (rw : ResponseWriter) (req : Request)
  : M (LoadBalancer * world) unit :=
  targetServer ← onFst (getNextAvailableServer fuel) ;
  onSnd (emit (Stdout ("forwarding request to '" +:+ Address targetServer
                         +:+ "'" +:+ newline))) ;;
  onSnd (Serve targetServer rw req).

(** [n] consecutive calls of the selection, results in call order. *)
Fixpoint selections (fuel : nat) (n : nat) : M LoadBalancer (list Server) :=
  match n with
  | O => mret []
  | S n' =>
      s ← getNextAvailableServer fuel ;
      rest ← selections fuel n' ;
      mret (s :: rest)
  end.

End Router.

(** The three servers of the scenarios. *)
Definition probe (name : string) (alive : bool) : Server :=
  asServer {| probedAddress := name; healthy := alive |}.

Definition A : Server := probe "A" true.
Definition B : Server := probe "B" true.
Definition C : Server := probe "C" true.
Definition B_down : Server := probe "B" false.
Definition A_down : Server := probe "A" false.

(** A [simpleServer] whose backend cannot be reached. *)
Definition unreachableBackend (name : string) : simpleServer :=
  {| address := name;
     proxy := {| Target := Some {| Scheme := "https"; Host := name |};
                 Transport := fun _ _ => None |} |}.

(** A stand-in for [url.Parse] that, like it, rejects an address with a
    leading colon. *)
Definition parseSample (address : string) : option URL * option string :=
  if String.prefix ":" address
  then (None, Some "missing protocol scheme")
  else (Some {| Scheme := "https"; Host := address |}, None).

(* ===================================================================== *)
(** ** Vocabulary of the statements *)
(* ===================================================================== *)

(** The router at another value of its counter. *)
Definition withCounter (lb : LoadBalancer) (c : Z) : LoadBalancer :=
  {| port := port lb; roundRobinCounter := c; servers := servers lb |}.

(** What [srv[c % len(srv)]] evaluates to. *)
Definition serverAt (srv : list Server) (c : Z) : outcome Server :=
  if len srv =? 0 then Panic DivideByZero
  else sliceIndex srv (Z.rem c (len srv)).

(** Liveness of every target / of some target. *)
Definition allAlive (srv : list Server) : Prop := Forall (fun s => IsAlive s = true) srv.
Definition allDead (srv : list Server) : Prop := Forall (fun s => IsAlive s = false) srv.
Definition someAlive (srv : list Server) : Prop := Exists (fun s => IsAlive s = true) srv.

(** The counter value [c] indexes a dead target. *)
Definition deadAt (srv : list Server) (c : Z) : Prop :=
  exists d, serverAt srv c = Ret d /\ IsAlive d = false.

(** The first live target of a list, with its offset. *)
Definition firstLive (l : list Server) : option (nat * Server) :=
  list_find (fun s => IsAlive s = true) l.

(** The scan order of a call entered with index [i]. *)
Definition scanFrom (srv : list Server) (i : Z) : list Server :=
  rotate (Z.to_nat i) srv.

(** [m] copies of a list, one after the other. *)
Fixpoint cycle {X} (m : nat) (l : list X) : list X :=
  match m with
  | O => []
  | S m' => l ++ cycle m' l
  end.

(** The live targets of a pool, in construction order. *)
Definition liveTargets (srv : list Server) : list Server :=
  filter (fun s => IsAlive s = true) srv.

(** Router states reached from construction: the constructor, then calls
    of the selection, whatever their outcome. *)
Inductive reachable (arch : GOARCH) (port : string) (srv : list Server)
  : LoadBalancer -> Prop :=
| reach_new : reachable arch port srv (NewLoadBalancer port srv)
| reach_call fuel lb :
    reachable arch port srv lb ->
    reachable arch port srv (getNextAvailableServer arch fuel lb).1.

(** The addresses [main] is compiled with. *)
Definition upstreams : list string :=
  ["https://www.google.com"; "https://www.bing.com"; "https://www.duckduckgo.com"].

(** The line [serveProxy] prints before it forwards. *)
Definition forwardingNote (target : Server) : event :=
  Stdout ("forwarding request to '" +:+ Address target +:+ "'" +:+ newline).

(* ===================================================================== *)
(** ** Concurrent callers *)
(* ===================================================================== *)

(** net/http serves every request on a goroutine of its own, so several
    calls of [getNextAvailableServer] run at once on the same router, with
    no lock and no atomic operation in the code. Each call is cut here at
    its accesses to the one shared variable, [lb.roundRobinCounter]; the
    target list is never written. [x++] is a read followed by a write. *)
Module Goroutines.

Inductive point : Type :=
| AtIndex                              (* l.86, l.89: read counter, index *)
| AtTest (server : Server)             (* l.87: [!server.IsAlive()] *)
| AtLoopLoad                           (* l.88: read of [counter++] *)
| AtLoopStore (tmp : Z)                (* l.88: write of [counter++] *)
| AtExitLoad (server : Server)         (* l.91: read of [counter++] *)
| AtExitStore (server : Server) (tmp : Z)  (* l.91: write of [counter++] *)
| Ended (o : outcome Server).          (* l.93 [return server], or a panic *)

Section Steps.

Variable arch : GOARCH.
Variable srv : list Server.

(** One step of one goroutine on the shared counter. *)
Definition step (counter : Z) (p : point) : Z * point :=
  match p with
  | AtIndex =>
      match serverAt srv counter with
      | Ret s => (counter, AtTest s)
      | o => (counter, Ended o)
      end
  | AtTest s =>
      if IsAlive s then (counter, AtExitLoad s) else (counter, AtLoopLoad)
  | AtLoopLoad => (counter, AtLoopStore counter)
  | AtLoopStore tmp => (GoInt.incr arch tmp, AtIndex)
  | AtExitLoad s => (counter, AtExitStore s counter)
  | AtExitStore s tmp => (GoInt.incr arch tmp, Ended (Ret s))
  | Ended o => (counter, Ended o)
  end.

(** The shared counter and the point each goroutine has reached. *)
Definition system : Type := Z * list point.

(** Goroutine [i] makes the next step. *)
Definition schedule1 (i : nat) (st : system) : system :=
  match st.2 !! i with
  | Some p => let '(c', p') := step st.1 p in (c', <[i := p']> st.2)
  | None => st
  end.

(** A schedule names the goroutine that moves at each instant. *)
Definition run (sched : list nat) (st : system) : system :=
  foldl (fun st i => schedule1 i st) st sched.

(** A goroutine running alone for [n] steps. *)
Definition alone (n : nat) (c : Z) (p : point) : Z * point :=
  Nat.iter n (fun cp => step cp.1 cp.2) (c, p).

End Steps.

(** How many goroutines have returned the target at a given address. *)
Definition returnedAt (name : string) (p : point) : bool :=
  match p with
  | Ended (Ret s) => String.eqb (Address s) name
  | _ => false
  end.

Definition selected (name : string) (ps : list point) : nat :=
  length (List.filter (returnedAt name) ps).

(** How many goroutines have returned a target at all. *)
Definition completed (ps : list point) : nat :=
  length (List.filter (fun p => match p with Ended (Ret _) => true | _ => false end) ps).

(** Three requests at once: every goroutine reads the counter before any
    of them writes it back. *)
Definition racy : list nat := [0; 1; 2; 0; 1; 2; 0; 1; 2; 0; 1; 2]%nat.

(** The same three requests one after the other. *)
Definition serial : list nat := [0; 0; 0; 0; 1; 1; 1; 1; 2; 2; 2; 2]%nat.

End Goroutines.

(* ===================================================================== *)
(** ** Requests in sequence *)
(* ===================================================================== *)

(** [handleRedirect], the closure [main] registers for every path. *)
Definition handleRedirect (arch : GOARCH) (fuel : nat) (rw : ResponseWriter)
    (req : Request) : M (LoadBalancer * world) unit :=
  serveProxy arch fuel rw req.

(** Requests that do not overlap: the handler runs for each of them in
    turn, up to the first one that does not return. *)
Fixpoint serveRequests (arch : GOARCH) (fuel : nat)
    (reqs : list (ResponseWriter * Request)) : M (LoadBalancer * world) unit :=
  match reqs with
  | [] => mret tt
  | (rw, req) :: rest =>
      handleRedirect arch fuel rw req ;; serveRequests arch fuel rest
  end.

(** The world after the requests [reqs], the first of which is request
    number [i], were handed in rotation to the targets of [pool]: for each
    request the note is printed, then the target at index [i mod len]
    serves the request, with the request's own writer. *)
Fixpoint served (pool : list Server) (i : nat)
    (reqs : list (ResponseWriter * Request)) (w : world) : world :=
  match reqs with
  | [] => w
  | (rw, req) :: rest =>
      match pool !! (i `mod` length pool)%nat with
      | Some t =>
          served pool (S i) rest (Serve t rw req (w ++ [forwardingNote t])).1
      | None => w
      end
  end.

(** What holds of every point a goroutine can be at, in a pool [srv]:
    a server in hand is a target of the pool, and it is live once the
    loop has been left. *)
Definition pointOf (srv : list Server) (p : Goroutines.point) : Prop :=
  match p with
  | Goroutines.AtTest s => s ∈ srv
  | Goroutines.AtExitLoad s | Goroutines.AtExitStore s _
  | Goroutines.Ended (Ret s) => s ∈ srv /\ IsAlive s = true
  | _ => True
  end.

(* ===================================================================== *)
(** ** Further vocabulary *)
(* ===================================================================== *)

(** The router [main] hands to the HTTP server when the three addresses
    parse to [u1], [u2], [u3]. *)
Definition mainRouter (DefaultTransport : URL -> Request -> option Response)
    (u1 u2 u3 : option URL) : LoadBalancer :=
  NewLoadBalancer "8080"
    [asServer {| address := "https://www.google.com";
                 proxy := NewSingleHostReverseProxy DefaultTransport u1 |};
     asServer {| address := "https://www.bing.com";
                 proxy := NewSingleHostReverseProxy DefaultTransport u2 |};
     asServer {| address := "https://www.duckduckgo.com";
                 proxy := NewSingleHostReverseProxy DefaultTransport u3 |}].

Definition listeningNote : event :=
  Stdout ("serving requests at 'localhost:8080'" +:+ newline).

(** A stand-in for [url.Parse] that rejects the addresses of two of the
    search engines. *)
Definition parsePicky (address : string) : option URL * option string :=
  if String.eqb address "https://www.google.com"
  then (Some {| Scheme := "https"; Host := "www.google.com" |}, None)
  else (None, Some ("cannot parse " +:+ address)).

(** What holds of a goroutine racing on a pool of live targets, [e] of the
    goroutines having returned: it is not in the loop body, it has not
    panicked, and a counter value it has read lies between the starting
    value [c0] and [c0 + e]. *)
Definition raceOf (srv : list Server) (c0 : Z) (e : nat) (p : Goroutines.point)
  : Prop :=
  match p with
  | Goroutines.AtIndex => True
  | Goroutines.AtTest s | Goroutines.AtExitLoad s
  | Goroutines.Ended (Ret s) => s ∈ srv
  | Goroutines.AtExitStore s tmp => s ∈ srv /\ c0 <= tmp <= c0 + Z.of_nat e
  | _ => False
  end.

Definition hasReturned (p : Goroutines.point) : bool :=
  match p with Goroutines.Ended (Ret _) => true | _ => false end.

(** The invariant of the race of [K] goroutines started at counter [c0]. *)
Definition racing (srv : list Server) (c0 : Z) (K : nat)
    (st : Goroutines.system) : Prop :=
  length st.2 = K
  /\ Forall (raceOf srv c0 (Goroutines.completed st.2)) st.2
  /\ c0 <= st.1 <= c0 + Z.of_nat (Goroutines.completed st.2)
  /\ ((1 <= Goroutines.completed st.2)%nat -> c0 + 1 <= st.1).

(* ===================================================================== *)
(** * Proofs *)
(* ===================================================================== *)

Ltac unfold_monad :=
  unfold mbind, mret, M_bind, M_ret, bind, ret, get, modify, lift, panic, spin,
    exit, onFst, onSnd in *.

(* ===================================================================== *)
(** ** Facts about Go's [int] *)
(* ===================================================================== *)

Module GoIntFacts.
Import GoInt.

Lemma half_pos arch : 0 < half arch.
Proof. destruct arch; reflexivity. Qed.

Lemma wrap_id arch x : inRange arch x -> wrap arch x = x.
Proof.
  unfold inRange, minInt, maxInt, wrap. intros Hx.
  pose proof (half_pos arch). rewrite Z.mod_small; lia.
Qed.

Lemma wrap_inRange arch x : inRange arch (wrap arch x).
Proof.
  unfold inRange, minInt, maxInt, wrap. pose proof (half_pos arch).
  pose proof (Z.mod_pos_bound (x + half arch) (2 * half arch)). lia.
Qed.

Lemma incr_small arch x :
  minInt arch <= x < maxInt arch -> incr arch x = x + 1.
Proof. intros Hx. apply wrap_id. unfold inRange. lia. Qed.

Lemma incr_maxInt arch : incr arch (maxInt arch) = minInt arch.
Proof. destruct arch; reflexivity. Qed.

Lemma advance_S arch x k :
  advance arch x (S k) = advance arch (incr arch x) k.
Proof. unfold advance. by rewrite Nat.iter_succ_r. Qed.

End GoIntFacts.

(* ===================================================================== *)
(** ** Equations of the selection code *)
(* ===================================================================== *)

Section RouterEquations.

Variable arch : GOARCH.

Lemma withCounter_same lb : withCounter lb (roundRobinCounter lb) = lb.
Proof. by destruct lb. Qed.

Lemma currentServer_eq lb :
  currentServer lb = (lb, serverAt (servers lb) (roundRobinCounter lb)).
Proof.
  unfold currentServer, serverAt, goRem. unfold_monad.
  by destruct (len (servers lb) =? 0).
Qed.

Lemma bumpCounter_eq lb :
  bumpCounter arch lb =
    (withCounter lb (GoInt.incr arch (roundRobinCounter lb)), Ret tt).
Proof. reflexivity. Qed.

Lemma skipDead_alive fuel s lb :
  IsAlive s = true -> skipDead arch fuel s lb = (lb, Ret s).
Proof. intros Hs. destruct fuel; cbn [skipDead]; by rewrite Hs. Qed.

Lemma skipDead_dead_O s lb :
  IsAlive s = false -> skipDead arch 0 s lb = (lb, Spin).
Proof. intros Hs. cbn [skipDead]. by rewrite Hs. Qed.

Lemma skipDead_dead_S fuel s lb :
  IsAlive s = false ->
  skipDead arch (S fuel) s lb =
    let lb' := withCounter lb (GoInt.incr arch (roundRobinCounter lb)) in
    match serverAt (servers lb) (roundRobinCounter lb') with
    | Ret s' => skipDead arch fuel s' lb'
    | Panic e => (lb', Panic e)
    | Exit c => (lb', Exit c)
    | Spin => (lb', Spin)
    end.
Proof.
  intros Hs. cbn [skipDead]. rewrite Hs.
  unfold mbind at 1, M_bind, bind. rewrite bumpCounter_eq.
  unfold mbind at 1, M_bind, bind. rewrite currentServer_eq. simpl.
  by destruct (serverAt _ _).
Qed.

Lemma getNextAvailableServer_eq fuel lb :
  getNextAvailableServer arch fuel lb =
    match serverAt (servers lb) (roundRobinCounter lb) with
    | Ret s =>
        match skipDead arch fuel s lb with
        | (lb', Ret a) =>
            (withCounter lb' (GoInt.incr arch (roundRobinCounter lb')), Ret a)
        | (lb', Panic e) => (lb', Panic e)
        | (lb', Exit c) => (lb', Exit c)
        | (lb', Spin) => (lb', Spin)
        end
    | Panic e => (lb, Panic e)
    | Exit c => (lb, Exit c)
    | Spin => (lb, Spin)
    end.
Proof.
  unfold getNextAvailableServer.
  unfold mbind at 1, M_bind, bind. rewrite currentServer_eq.
  destruct (serverAt _ _) as [s| | |]; reflexivity.
Qed.

Lemma selections_S fuel n lb :
  selections arch fuel (S n) lb =
    match getNextAvailableServer arch fuel lb with
    | (lb', Ret s) =>
        match selections arch fuel n lb' with
        | (lb'', Ret rest) => (lb'', Ret (s :: rest))
        | (lb'', Panic e) => (lb'', Panic e)
        | (lb'', Exit c) => (lb'', Exit c)
        | (lb'', Spin) => (lb'', Spin)
        end
    | (lb', Panic e) => (lb', Panic e)
    | (lb', Exit c) => (lb', Exit c)
    | (lb', Spin) => (lb', Spin)
    end.
Proof.
  simpl. unfold mbind, M_bind, bind.
  destruct (getNextAvailableServer arch fuel lb) as [lb' [s| | |]]; reflexivity.
Qed.

(** *** Frame: only the counter is ever written *)

Lemma skipDead_frame fuel : forall s lb,
  (skipDead arch fuel s lb).1 =
    withCounter lb (roundRobinCounter (skipDead arch fuel s lb).1).
Proof.
  induction fuel as [|fuel IH]; intros s lb.
  - cbn [skipDead]. destruct (IsAlive s); simpl; by rewrite withCounter_same.
  - destruct (IsAlive s) eqn:Hs.
    + rewrite skipDead_alive by done. simpl. by rewrite withCounter_same.
    + rewrite skipDead_dead_S by done. cbv zeta.
      destruct (serverAt _ _) as [s'| | |]; simpl; try reflexivity.
      rewrite (IH s' (withCounter lb _)) at 1. reflexivity.
Qed.

Lemma getNextAvailableServer_frame fuel lb :
  (getNextAvailableServer arch fuel lb).1 =
    withCounter lb (roundRobinCounter (getNextAvailableServer arch fuel lb).1).
Proof.
  rewrite getNextAvailableServer_eq.
  destruct (serverAt _ _) as [s| | |]; simpl; try by rewrite withCounter_same.
  pose proof (skipDead_frame fuel s lb) as Hf.
  destruct (skipDead arch fuel s lb) as [lb' [a| | |]]; simpl in *; try done.
  rewrite Hf. reflexivity.
Qed.

End RouterEquations.

(* ===================================================================== *)
(** ** Indexing: [srv[c % len(srv)]] *)
(* ===================================================================== *)

Section Indexing.

Implicit Types (srv : list Server) (c : Z) (s : Server).

Lemma len_pos srv : srv <> [] -> 0 < len srv.
Proof. destruct srv; [done|]. unfold len. simpl. lia. Qed.

Lemma len_zero srv : len srv = 0 -> srv = [].
Proof. destruct srv; [done|]. unfold len. simpl. lia. Qed.

(** A negative remainder is an index out of range. *)
Lemma serverAt_negative srv c :
  srv <> [] -> Z.rem c (len srv) < 0 -> serverAt srv c = Panic IndexOutOfRange.
Proof.
  intros Hne Hneg. pose proof (len_pos srv Hne). unfold serverAt, sliceIndex.
  destruct (Z.eqb_spec (len srv) 0); [lia|].
  destruct (Z.ltb_spec (Z.rem c (len srv)) 0); [done|lia].
Qed.

Lemma serverAt_Ret srv c s :
  serverAt srv c = Ret s <->
  srv <> [] /\ 0 <= Z.rem c (len srv) /\
  srv !! Z.to_nat (Z.rem c (len srv)) = Some s.
Proof.
  unfold serverAt, sliceIndex.
  destruct (Z.eqb_spec (len srv) 0) as [Hz|Hz].
  - split; [done|]. intros [Hne _]. apply len_zero in Hz. done.
  - assert (srv <> []) by (intros ->; by apply Hz).
    destruct (Z.ltb_spec (Z.rem c (len srv)) 0).
    + split; [done|]. intros (_ & ? & _). lia.
    + destruct (srv !! _) as [x|] eqn:Hl; split.
      * intros [= ->]. done.
      * intros (_ & _ & [= ->]). done.
      * done.
      * intros (_ & _ & [=]).
Qed.

(** The only ways the indexing expression can end. *)
Lemma serverAt_cases srv c :
  (exists s, serverAt srv c = Ret s)
  \/ serverAt srv c = Panic DivideByZero
  \/ serverAt srv c = Panic IndexOutOfRange.
Proof.
  unfold serverAt, sliceIndex.
  destruct (len srv =? 0); [by right; left|].
  destruct (Z.rem c (len srv) <? 0); [by right; right|].
  destruct (srv !! _); [left; by eexists | by right; right].
Qed.

(** With a non-negative counter the index is [c mod len], in range. *)
Lemma rem_nonneg_bounds srv c :
  srv <> [] -> 0 <= c ->
  Z.rem c (len srv) = c `mod` len srv /\ 0 <= c `mod` len srv < len srv.
Proof.
  intros Hne Hc. pose proof (len_pos srv Hne).
  split; [apply Z.rem_mod_nonneg; lia | apply Z.mod_pos_bound; lia].
Qed.

Lemma serverAt_nonneg srv c :
  srv <> [] -> 0 <= c ->
  exists s, serverAt srv c = Ret s /\
            srv !! Z.to_nat (c `mod` len srv) = Some s.
Proof.
  intros Hne Hc. destruct (rem_nonneg_bounds srv c Hne Hc) as [Hr Hb].
  destruct (lookup_lt_is_Some_2 srv (Z.to_nat (c `mod` len srv))) as [s Hs].
  { unfold len in *. lia. }
  exists s. split; [|done]. apply serverAt_Ret. rewrite Hr. split_and!; [done|lia|done].
Qed.

(** The servers met at counters [c], [c+1], ... are the list rotated to
    start at index [c mod len]. *)
Lemma serverAt_rotate srv c (k : nat) s :
  srv <> [] -> 0 <= c -> (k < length srv)%nat ->
  serverAt srv (c + Z.of_nat k) = Ret s <->
  rotate (Z.to_nat (c `mod` len srv)) srv !! k = Some s.
Proof.
  intros Hne Hc Hk. pose proof (len_pos srv Hne) as Hpos.
  rewrite lookup_rotate_r by done. unfold rotate_nat_add.
  rewrite Z2Nat.id by (apply Z.mod_pos_bound; lia).
  fold (len srv). rewrite Zplus_mod_idemp_l.
  destruct (rem_nonneg_bounds srv (c + Z.of_nat k) Hne ltac:(lia)) as [Hr Hb].
  rewrite serverAt_Ret, Hr. split; [by intros (_ & _ & ?)|]. intros Hl.
  split; [done|split; [lia|done]].
Qed.

End Indexing.

(* ===================================================================== *)
(** ** Runs of the skip loop that stay below the largest int *)
(* ===================================================================== *)

Section Runs.

Variable arch : GOARCH.
Implicit Types (lb : LoadBalancer) (srv : list Server) (c : Z) (s a : Server).

Lemma length_scanFrom srv i : length (scanFrom srv i) = length srv.
Proof. apply length_rotate. Qed.

Lemma maxInt_pos : 0 < GoInt.maxInt arch.
Proof. destruct arch; reflexivity. Qed.

Lemma minInt_neg : GoInt.minInt arch < 0.
Proof. destruct arch; reflexivity. Qed.

(** [j] dead servers in a row at counters [c .. c+j-1], then a live one:
    the loop makes [j] increments and stops on the live one. *)
Lemma skipDead_run j : forall fuel lb s a,
  let c := roundRobinCounter lb in
  0 <= c -> c + Z.of_nat j <= GoInt.maxInt arch ->
  serverAt (servers lb) c = Ret s ->
  (forall k, (k < j)%nat ->
     exists d, serverAt (servers lb) (c + Z.of_nat k) = Ret d /\ IsAlive d = false) ->
  serverAt (servers lb) (c + Z.of_nat j) = Ret a ->
  IsAlive a = true ->
  (j <= fuel)%nat ->
  skipDead arch fuel s lb = (withCounter lb (c + Z.of_nat j), Ret a).
Proof.
  induction j as [|j IH]; intros fuel lb s a c Hc Hmax Hs Hdead Ha Halive Hfuel.
  - rewrite Z.add_0_r in *. assert (s = a) as -> by congruence.
    rewrite skipDead_alive by done. subst c. by rewrite withCounter_same.
  - destruct (Hdead 0%nat ltac:(lia)) as (d & Hd & Hdd).
    rewrite Z.add_0_r in Hd. assert (s = d) as -> by congruence.
    destruct fuel as [|fuel]; [lia|].
    rewrite skipDead_dead_S by done. cbv zeta. fold c.
    pose proof minInt_neg.
    rewrite GoIntFacts.incr_small by lia. simpl roundRobinCounter. simpl servers.
    assert (exists s', serverAt (servers lb) (c + 1) = Ret s') as [s' Hs'].
    { destruct j as [|j].
      - exists a. by rewrite <- Ha.
      - destruct (Hdead 1%nat ltac:(lia)) as (d' & Hd' & _). by exists d'. }
    rewrite Hs'.
    rewrite (IH fuel (withCounter lb (c + 1)) s' a); simpl; try done; try lia.
    + unfold withCounter. simpl. do 2 f_equal. lia.
    + intros k Hk. destruct (Hdead (S k) ltac:(lia)) as (d' & Hd' & Hdd').
      exists d'. split; [|done]. rewrite <- Hd'. f_equal. lia.
    + rewrite <- Ha. f_equal. lia.
Qed.

(** One call, entered with a non-negative counter, far enough from the
    largest int: it returns the first live target in scan order, and
    leaves the counter just after it. *)
Lemma getNextAvailableServer_run fuel lb j a :
  let c := roundRobinCounter lb in
  let srv := servers lb in
  0 <= c ->
  firstLive (scanFrom srv (c `mod` len srv)) = Some (j, a) ->
  c + Z.of_nat j < GoInt.maxInt arch ->
  (j <= fuel)%nat ->
  getNextAvailableServer arch fuel lb =
    (withCounter lb (c + Z.of_nat j + 1), Ret a).
Proof.
  intros c srv Hc Hfind Hmax Hfuel.
  apply list_find_Some in Hfind as (Hja & Halive & Hbefore).
  assert ((j < length srv)%nat) as Hj.
  { apply lookup_lt_Some in Hja. by rewrite length_scanFrom in Hja. }
  assert (srv <> []) as Hne by (intros E; rewrite E in Hj; simpl in Hj; lia).
  rewrite getNextAvailableServer_eq. fold c srv.
  destruct (serverAt_nonneg srv c Hne Hc) as (s & Hs & _). rewrite Hs.
  rewrite (skipDead_run j fuel lb s a); fold c srv; try done; try lia.
  - simpl. pose proof minInt_neg. rewrite GoIntFacts.incr_small by lia. done.
  - intros k Hk. destruct (lookup_lt_is_Some_2 (scanFrom srv (c `mod` len srv)) k) as [d Hd].
    { rewrite length_scanFrom. lia. }
    exists d. split.
    + apply serverAt_rotate; [done|done|lia|done].
    + specialize (Hbefore k d Hd Hk). by destruct (IsAlive d).
  - by apply serverAt_rotate.
Qed.

(** When some target is live, the scan finds one within [len] steps. *)
Lemma firstLive_exists srv i :
  someAlive srv -> exists j a,
    firstLive (scanFrom srv i) = Some (j, a) /\ (j < length srv)%nat.
Proof.
  intros Hsome. apply Exists_exists in Hsome as (x & Hx & Hax).
  destruct (list_find_elem_of (fun s => IsAlive s = true) (scanFrom srv i) x)
    as [[j a] Hfind]; [|done|].
  - unfold scanFrom. by apply elem_of_rotate.
  - exists j, a. split; [done|]. apply list_find_Some in Hfind as (Hl & _).
    apply lookup_lt_Some in Hl. by rewrite length_scanFrom in Hl.
Qed.

Lemma firstLive_alive l j a : firstLive l = Some (j, a) -> IsAlive a = true.
Proof. intros H. by apply list_find_Some in H as (_ & ? & _). Qed.

End Runs.

(* ===================================================================== *)
(** ** Pools in which every target is live *)
(* ===================================================================== *)

Section AllAlive.

Variable arch : GOARCH.
Implicit Types (lb : LoadBalancer) (srv : list Server) (c : Z).

(** With every target live no call enters the loop body: the target at
    the current index is returned and the counter moves by one. *)
Lemma getNextAvailableServer_allAlive fuel lb :
  let c := roundRobinCounter lb in
  let srv := servers lb in
  srv <> [] -> allAlive srv -> 0 <= c ->
  exists s, srv !! Z.to_nat (c `mod` len srv) = Some s /\
    getNextAvailableServer arch fuel lb =
      (withCounter lb (GoInt.incr arch c), Ret s).
Proof.
  intros c srv Hne Hall Hc.
  destruct (serverAt_nonneg srv c Hne Hc) as (s & Hs & Hl).
  exists s. split; [done|].
  rewrite getNextAvailableServer_eq. fold c srv. rewrite Hs.
  rewrite skipDead_alive; [done|].
  exact (Forall_lookup_1 (fun s => IsAlive s = true) srv _ s Hall Hl).
Qed.


(** Calls on a live pool keep returning for as long as the counter has
    not reached the largest int; the counter counts the calls. *)
Lemma selections_allAlive_counter fuel k : forall lb,
  servers lb <> [] -> allAlive (servers lb) ->
  0 <= roundRobinCounter lb ->
  roundRobinCounter lb + Z.of_nat k <= GoInt.maxInt arch ->
  exists r, selections arch fuel k lb =
    (withCounter lb (roundRobinCounter lb + Z.of_nat k), Ret r).
Proof.
  induction k as [|k IH]; intros lb Hne Hall Hc Hmax.
  - exists []. simpl. by rewrite Z.add_0_r, withCounter_same.
  - rewrite selections_S.
    destruct (getNextAvailableServer_allAlive fuel lb Hne Hall Hc) as (s & _ & ->).
    pose proof (minInt_neg arch). rewrite GoIntFacts.incr_small by lia.
    destruct (IH (withCounter lb (roundRobinCounter lb + 1))) as [r Hr];
      simpl; try done; try lia.
    rewrite Hr. exists (s :: r). f_equal. unfold withCounter. simpl. f_equal. lia.
Qed.

End AllAlive.

Lemma reachable_selections arch port srv fuel n : forall lb,
  reachable arch port srv lb ->
  reachable arch port srv (selections arch fuel n lb).1.
Proof.
  induction n as [|n IH]; intros lb Hlb; [done|].
  rewrite selections_S.
  pose proof (reach_call arch port srv fuel lb Hlb) as Hstep.
  destruct (getNextAvailableServer arch fuel lb) as [lb' [s| | |]]; try done.
  specialize (IH lb' Hstep).
  destruct (selections arch fuel n lb') as [lb'' [r| | |]]; done.
Qed.

(* ===================================================================== *)
(** ** Every run of the skip loop, wrap-around included *)
(* ===================================================================== *)

Section Wraparound.

Variable arch : GOARCH.
Implicit Types (lb : LoadBalancer) (srv : list Server) (c n : Z).

Lemma advance_inRange c k :
  GoInt.inRange arch c -> GoInt.inRange arch (GoInt.advance arch c k).
Proof.
  intros Hc. destruct k as [|k]; [done|].
  unfold GoInt.advance. simpl. apply GoIntFacts.wrap_inRange.
Qed.

Lemma advance_succ c k :
  GoInt.advance arch c (S k) = GoInt.incr arch (GoInt.advance arch c k).
Proof. reflexivity. Qed.

(** Two consecutive counters that both pass the bounds check index
    consecutive slots, also across the wrap from the largest to the
    smallest int. *)
Lemma rem_incr n c :
  0 < n -> GoInt.inRange arch c ->
  0 <= Z.rem c n -> 0 <= Z.rem (GoInt.incr arch c) n ->
  Z.rem (GoInt.incr arch c) n = (Z.rem c n + 1) `mod` n.
Proof.
  intros Hn [Hlo Hhi] Hr Hr'.
  destruct (Z.eq_dec c (GoInt.maxInt arch)) as [->|Hne].
  - rewrite GoIntFacts.incr_maxInt in *. unfold GoInt.minInt, GoInt.maxInt in *.
    pose proof (GoIntFacts.half_pos arch) as Hh.
    rewrite Z.rem_opp_l in * by lia.
    rewrite Z.rem_mod_nonneg in * by lia.
    pose proof (Z.mod_pos_bound (GoInt.half arch) n Hn).
    assert (GoInt.half arch `mod` n = 0) as Hz by lia.
    rewrite (Z.rem_mod_nonneg (GoInt.half arch - 1)) by lia.
    rewrite Hz. rewrite Zplus_mod_idemp_l.
    replace (GoInt.half arch - 1 + 1) with (GoInt.half arch) by lia.
    rewrite Hz. lia.
  - rewrite GoIntFacts.incr_small in * by lia.
    destruct (Z_le_gt_dec 0 c) as [Hc|Hc].
    + rewrite !Z.rem_mod_nonneg by lia. by rewrite Zplus_mod_idemp_l.
    + pose proof (Z.rem_nonpos c n ltac:(lia) ltac:(lia)).
      pose proof (Z.rem_nonpos (c + 1) n ltac:(lia) ltac:(lia)).
      pose proof (Z.quot_rem' c n). pose proof (Z.quot_rem' (c + 1) n).
      assert (n * ((c + 1) ÷ n - c ÷ n) = 1) as Hone by lia.
      apply Z.eq_mul_1_nonneg in Hone as [-> _]; [|lia].
      by rewrite Z.rem_1_r, Z.mod_1_r.
Qed.

Lemma rem_advance n k : forall c,
  0 < n -> GoInt.inRange arch c ->
  (forall k', (k' <= k)%nat -> 0 <= Z.rem (GoInt.advance arch c k') n) ->
  Z.rem (GoInt.advance arch c k) n = (Z.rem c n + Z.of_nat k) `mod` n.
Proof.
  induction k as [|k IH]; intros c Hn Hc Hvalid.
  - specialize (Hvalid 0%nat ltac:(lia)). unfold GoInt.advance in *. simpl in *.
    rewrite Z.add_0_r. pose proof (Z.rem_bound_pos_pos).
    destruct (Z_le_gt_dec 0 c).
    + rewrite Z.rem_mod_nonneg by lia. by rewrite Z.mod_mod by lia.
    + pose proof (Z.rem_nonpos c n ltac:(lia) ltac:(lia)).
      replace (Z.rem c n) with 0 by lia. by rewrite Z.mod_0_l by lia.
  - rewrite GoIntFacts.advance_S.
    rewrite IH; [|done|apply GoIntFacts.wrap_inRange|].
    + rewrite rem_incr; [|done|done|apply (Hvalid 0%nat); lia|apply (Hvalid 1%nat); lia].
      rewrite Zplus_mod_idemp_l. f_equal. lia.
    + intros k' Hk'. rewrite <- GoIntFacts.advance_S. apply Hvalid. lia.
Qed.

(** How a run of the loop can end, in terms of the servers met at the
    successive values of the counter. *)
Lemma skipDead_inv fuel : forall s lb lb' o,
  let c := roundRobinCounter lb in
  let srv := servers lb in
  serverAt srv c = Ret s ->
  skipDead arch fuel s lb = (lb', o) ->
  exists j, (j <= fuel)%nat /\
    lb' = withCounter lb (GoInt.advance arch c j) /\
    (forall k, (k < j)%nat -> deadAt srv (GoInt.advance arch c k)) /\
    match o with
    | Ret a => serverAt srv (GoInt.advance arch c j) = Ret a /\ IsAlive a = true
    | Panic e => serverAt srv (GoInt.advance arch c j) = Panic e
    | Spin => j = fuel /\ deadAt srv (GoInt.advance arch c j)
    | Exit _ => False
    end.
Proof.
  induction fuel as [|fuel IH]; intros s lb lb' o c srv Hs Hrun.
  - exists 0%nat. cbn [skipDead] in Hrun.
    destruct (IsAlive s) eqn:Ha; unfold_monad; simplify_eq;
      (split; [lia|split; [by rewrite withCounter_same|split; [intros; lia|]]]).
    + done.
    + split; [done|]. by exists s.
  - destruct (IsAlive s) eqn:Ha.
    + rewrite skipDead_alive in Hrun by done. simplify_eq. exists 0%nat.
      split; [lia|split; [by rewrite withCounter_same|split; [intros; lia|done]]].
    + rewrite skipDead_dead_S in Hrun by done. cbv zeta in Hrun.
      simpl roundRobinCounter in Hrun. fold c srv in Hrun.
      assert (deadAt srv (GoInt.advance arch c 0)) as Hd0 by (by exists s).
      destruct (serverAt srv (GoInt.incr arch c)) as [s'|e|x|] eqn:Hs'.
      * apply IH in Hrun as (j & Hj & -> & Hdead & Hend); [|done].
        cbn [roundRobinCounter servers withCounter] in Hdead, Hend.
        exists (S j). rewrite GoIntFacts.advance_S.
        split; [lia|split; [done|split]].
        -- intros [|k] Hk; [done|]. rewrite GoIntFacts.advance_S. apply Hdead. lia.
        -- destruct o; [done|done|done|]. destruct Hend. split; [lia|done].
      * simplify_eq. exists 1%nat.
        split; [lia|split; [done|split; [|done]]].
        intros k Hk. by replace k with 0%nat by lia.
      * destruct (serverAt_cases srv (GoInt.incr arch c)) as [[? ?]|[?|?]]; congruence.
      * destruct (serverAt_cases srv (GoInt.incr arch c)) as [[? ?]|[?|?]]; congruence.
Qed.

End Wraparound.

Section Soundness.

Variable arch : GOARCH.
Implicit Types (lb : LoadBalancer) (srv : list Server) (c : Z).

(** How a call can end. *)
Lemma getNextAvailableServer_inv fuel lb lb' o :
  let c := roundRobinCounter lb in
  let srv := servers lb in
  getNextAvailableServer arch fuel lb = (lb', o) ->
  exists j, (j <= fuel)%nat /\
    (forall k, (k < j)%nat -> deadAt srv (GoInt.advance arch c k)) /\
    match o with
    | Ret a =>
        lb' = withCounter lb (GoInt.advance arch c (S j)) /\
        serverAt srv (GoInt.advance arch c j) = Ret a /\ IsAlive a = true
    | Panic e =>
        lb' = withCounter lb (GoInt.advance arch c j) /\
        serverAt srv (GoInt.advance arch c j) = Panic e
    | Spin =>
        lb' = withCounter lb (GoInt.advance arch c j) /\
        j = fuel /\ deadAt srv (GoInt.advance arch c j)
    | Exit _ => False
    end.
Proof.
  intros c srv. rewrite getNextAvailableServer_eq. fold c srv.
  destruct (serverAt srv c) as [s|e|x|] eqn:Hs.
  - destruct (skipDead arch fuel s lb) as [lb1 o1] eqn:Hrun.
    apply skipDead_inv in Hrun as (j & Hj & -> & Hdead & Hend); [|done].
    fold c srv in Hdead, Hend. intros Heq. exists j.
    split; [done|split; [done|]].
    destruct o1 as [a|e|x|]; simplify_eq; done.
  - intros. simplify_eq. exists 0%nat.
    split; [lia|split; [intros; lia|]]. by rewrite withCounter_same.
  - destruct (serverAt_cases srv c) as [[? ?]|[?|?]]; congruence.
  - destruct (serverAt_cases srv c) as [[? ?]|[?|?]]; congruence.
Qed.

Lemma serverAt_rem_eq srv c1 c2 :
  Z.rem c1 (len srv) = Z.rem c2 (len srv) -> serverAt srv c1 = serverAt srv c2.
Proof. unfold serverAt. by intros ->. Qed.

(** While the bounds check passes, the slot read after [k] increments is
    the [k]-th of the scan order. *)
Lemma scan_lookup srv c (k : nat) :
  srv <> [] -> GoInt.inRange arch c ->
  (forall k', (k' <= k)%nat -> 0 <= Z.rem (GoInt.advance arch c k') (len srv)) ->
  (k < length srv)%nat ->
  scanFrom srv (Z.rem c (len srv)) !! k =
    srv !! Z.to_nat (Z.rem (GoInt.advance arch c k) (len srv)).
Proof.
  intros Hne Hc Hvalid Hk. pose proof (len_pos srv Hne) as Hpos.
  rewrite (rem_advance arch (len srv) k c Hpos Hc Hvalid).
  unfold scanFrom. rewrite lookup_rotate_r by done. unfold rotate_nat_add.
  rewrite Z2Nat.id by (apply (Hvalid 0%nat); lia). done.
Qed.

(** A run that ends on a live server after [j] dead ones has followed
    the scan order up to its first live target. *)
Lemma firstLive_of_run srv c j a :
  srv <> [] -> GoInt.inRange arch c ->
  (forall k, (k < j)%nat -> deadAt srv (GoInt.advance arch c k)) ->
  serverAt srv (GoInt.advance arch c j) = Ret a -> IsAlive a = true ->
  0 <= Z.rem c (len srv) /\
  firstLive (scanFrom srv (Z.rem c (len srv))) = Some (j, a).
Proof.
  intros Hne Hc Hdead Ha Halive. pose proof (len_pos srv Hne) as Hpos.
  assert (forall k, (k <= j)%nat ->
            0 <= Z.rem (GoInt.advance arch c k) (len srv)) as Hvalid.
  { intros k Hk. destruct (decide (k = j)) as [->|Hkj].
    - by apply serverAt_Ret in Ha as (_ & ? & _).
    - destruct (Hdead k ltac:(lia)) as (d & Hd & _).
      by apply serverAt_Ret in Hd as (_ & ? & _). }
  assert ((j < length srv)%nat) as Hj.
  { destruct (decide (j < length srv)%nat) as [|Hge]; [done|exfalso].
    set (k0 := (j `mod` length srv)%nat).
    assert ((k0 < length srv)%nat) as Hk0.
    { apply Nat.mod_upper_bound. unfold len in Hpos. lia. }
    destruct (Hdead k0 ltac:(lia)) as (d & Hd & Hdd).
    rewrite (serverAt_rem_eq srv _ (GoInt.advance arch c j)) in Hd.
    { congruence. }
    rewrite !rem_advance; try done.
    - unfold k0. rewrite Nat2Z.inj_mod. fold (len srv).
      by rewrite Zplus_mod_idemp_r.
    - intros k' Hk'. apply Hvalid. lia. }
  split; [apply (Hvalid 0%nat); lia|].
  apply list_find_Some. split; [|split; [done|]].
  - rewrite scan_lookup; try done. by apply serverAt_Ret in Ha as (_ & _ & ?).
  - intros k y Hy Hk. rewrite scan_lookup in Hy; try done; try lia.
    + destruct (Hdead k Hk) as (d & Hd & Hdd).
      apply serverAt_Ret in Hd as (_ & _ & Hd). congruence.
    + intros k' Hk'. apply Hvalid. lia.
Qed.

(** Whatever the counter, a call that returns has returned the first
    live target of the scan order entered at index [c % len]. *)
Lemma getNextAvailableServer_sound fuel lb lb' a :
  let c := roundRobinCounter lb in
  let srv := servers lb in
  GoInt.inRange arch c ->
  getNextAvailableServer arch fuel lb = (lb', Ret a) ->
  srv <> [] /\ 0 <= Z.rem c (len srv) /\
  exists j, firstLive (scanFrom srv (Z.rem c (len srv))) = Some (j, a) /\
    (j <= fuel)%nat /\
    lb' = withCounter lb (GoInt.advance arch c (S j)) /\
    (0 <= Z.rem (GoInt.advance arch c (S j)) (len srv) ->
     Z.rem (GoInt.advance arch c (S j)) (len srv)
     = (Z.rem c (len srv) + Z.of_nat (S j)) `mod` len srv).
Proof.
  intros c srv Hc Hrun.
  apply getNextAvailableServer_inv in Hrun as (j & Hj & Hdead & -> & Ha & Halive).
  fold c srv in Hdead, Ha.
  assert (srv <> []) as Hne by (by apply serverAt_Ret in Ha as (? & _)).
  destruct (firstLive_of_run srv c j a Hne Hc Hdead Ha Halive) as [Hr Hfind].
  split; [done|split; [done|]]. exists j. split; [done|split; [done|split; [done|]]].
  intros Hnext. apply rem_advance; [by apply len_pos|done|].
  intros k' Hk'. destruct (decide (k' = S j)) as [->|Hne']; [done|].
  destruct (decide (k' = j)) as [->|Hne''].
  - by apply serverAt_Ret in Ha as (_ & ? & _).
  - destruct (Hdead k' ltac:(lia)) as (d & Hd & _).
    by apply serverAt_Ret in Hd as (_ & ? & _).
Qed.

End Soundness.

(* ===================================================================== *)
(** ** Sequences of calls: the pool unrolled into a tape *)
(* ===================================================================== *)

Section Tape.

Context {X : Type}.
Implicit Types (l : list X) (m q : nat).

Lemma lookup_cycle m l q :
  (q < m * length l)%nat -> cycle m l !! q = l !! (q `mod` length l)%nat.
Proof.
  revert q. induction m as [|m IH]; intros q Hq; simpl in *; [lia|].
  destruct (decide (q < length l)%nat) as [Hlt|Hge].
  - rewrite lookup_app_l by done. by rewrite Nat.mod_small.
  - rewrite lookup_app_r by lia. rewrite IH by lia. f_equal.
    replace q with ((q - length l) + 1 * length l)%nat at 2 by lia.
    by rewrite Nat.Div0.mod_add.
Qed.

Lemma filter_cycle (P : X -> Prop) `{!forall x, Decision (P x)} m l :
  filter P (cycle m l) = cycle m (filter P l).
Proof. induction m as [|m IH]; simpl; [done|]. by rewrite filter_app, IH. Qed.

Lemma filter_all (P : X -> Prop) `{!forall x, Decision (P x)} l :
  Forall P l -> filter P l = l.
Proof.
  induction 1 as [|x l Hx _ IH]; [done|]. by rewrite filter_cons_True, IH.
Qed.

Lemma filter_none (P : X -> Prop) `{!forall x, Decision (P x)} l :
  Forall (fun x => ~ P x) l -> filter P l = [].
Proof.
  induction 1 as [|x l Hx _ IH]; [done|]. by rewrite filter_cons_False.
Qed.

End Tape.

Section TapeOfServers.

Implicit Types (srv : list Server) (m q : nat).

(** From any position of the tape the next [len] cells are the scan
    order of a call entered at that position. *)
Lemma tape_scan srv m q (k : nat) :
  srv <> [] -> (q + length srv <= m * length srv)%nat -> (k < length srv)%nat ->
  drop q (cycle m srv) !! k = scanFrom srv (Z.of_nat q `mod` len srv) !! k.
Proof.
  intros Hne Hq Hk. pose proof (len_pos srv Hne) as Hpos.
  rewrite lookup_drop, lookup_cycle by lia.
  unfold scanFrom. rewrite lookup_rotate_r by done. unfold rotate_nat_add.
  rewrite Z2Nat.id by (apply Z.mod_pos_bound; lia).
  fold (len srv). rewrite Zplus_mod_idemp_l.
  f_equal. unfold len. rewrite <- Nat2Z.inj_add, <- Nat2Z.inj_mod. lia.
Qed.

(** One selection consumes the tape up to and including the first live
    cell. *)
Lemma tape_step srv m q j a :
  (q + length srv <= m * length srv)%nat ->
  firstLive (scanFrom srv (Z.of_nat q `mod` len srv)) = Some (j, a) ->
  liveTargets (drop q (cycle m srv)) =
    a :: liveTargets (drop (q + j + 1) (cycle m srv)).
Proof.
  intros Hq Hfind. apply list_find_Some in Hfind as (Hja & Halive & Hbefore).
  assert ((j < length srv)%nat) as Hj.
  { apply lookup_lt_Some in Hja. by rewrite length_scanFrom in Hja. }
  assert (srv <> []) as Hne by (intros E; rewrite E in Hj; simpl in Hj; lia).
  rewrite <- tape_scan with (m := m) in Hja by done.
  rewrite <- (take_drop_middle _ _ _ Hja) at 1.
  unfold liveTargets. rewrite filter_app, filter_cons_True by done.
  rewrite filter_none.
  - simpl. rewrite drop_drop. do 3 f_equal. lia.
  - apply Forall_lookup. intros k y Hy.
    assert ((k < j)%nat) as Hk.
    { apply lookup_lt_Some in Hy. rewrite length_take in Hy. lia. }
    rewrite lookup_take_lt in Hy by done.
    rewrite tape_scan in Hy by (done || lia). eauto.
Qed.

End TapeOfServers.

Section SelectionsOnTape.

Variable arch : GOARCH.
Implicit Types (lb : LoadBalancer) (srv : list Server) (m q k : nat).

(** Below the largest int, [k] calls return the first [k] live cells of
    the tape. *)
Lemma selections_tape_run fuel m k : forall lb q,
  let srv := servers lb in
  someAlive srv ->
  roundRobinCounter lb = Z.of_nat q ->
  (q + k * length srv <= m * length srv)%nat ->
  Z.of_nat (m * length srv) <= GoInt.maxInt arch ->
  (length srv <= S fuel)%nat ->
  exists c', Z.of_nat q <= c' <= Z.of_nat (q + k * length srv) /\
    selections arch fuel k lb =
      (withCounter lb c', Ret (take k (liveTargets (drop q (cycle m srv))))).
Proof.
  induction k as [|k IH]; intros lb q srv Hsome Hc Hq Hmax Hfuel.
  - exists (Z.of_nat q). split; [lia|]. simpl.
    by rewrite <- Hc, withCounter_same.
  - rewrite selections_S.
    destruct (firstLive_exists srv (Z.of_nat q `mod` len srv) Hsome)
      as (j & a & Hfind & Hj).
    rewrite (getNextAvailableServer_run arch fuel lb j a);
      fold srv; rewrite ?Hc; try done; try lia.
    destruct (IH (withCounter lb (Z.of_nat q + Z.of_nat j + 1)) (q + j + 1)%nat)
      as (c' & Hc' & Hrun); simpl; fold srv; try done; try lia.
    cbn [servers withCounter] in Hc', Hrun. fold srv in Hc', Hrun.
    exists c'. split; [lia|]. rewrite Hrun.
    rewrite (tape_step srv m q j a) by (done || lia). done.
Qed.

(** Whatever the counter does, the targets that [k] calls return are
    the first [k] live cells of the tape. *)
Lemma selections_tape_sound fuel m k : forall lb q lb' r,
  let srv := servers lb in
  let c := roundRobinCounter lb in
  GoInt.inRange arch c ->
  (0 <= Z.rem c (len srv) -> Z.rem c (len srv) = Z.of_nat q `mod` len srv) ->
  (q + k * length srv <= m * length srv)%nat ->
  selections arch fuel k lb = (lb', Ret r) ->
  r = take k (liveTargets (drop q (cycle m srv))).
Proof.
  induction k as [|k IH]; intros lb q lb' r srv c Hc Hcorr Hq Hrun.
  - simpl in Hrun. unfold_monad. by simplify_eq.
  - rewrite selections_S in Hrun.
    destruct (getNextAvailableServer arch fuel lb) as [lb1 [a| | |]] eqn:Hcall;
      try done.
    destruct (selections arch fuel k lb1) as [lb2 [rest| | |]] eqn:Hrest;
      try done.
    simplify_eq.
    apply getNextAvailableServer_sound in Hcall
      as (Hne & Hr & j & Hfind & _ & -> & Hnext); [|done].
    fold srv c in Hne, Hr, Hfind, Hnext. rewrite (Hcorr Hr) in Hfind.
    assert ((j < length srv)%nat) as Hj.
    { apply list_find_Some in Hfind as (Hl & _).
      apply lookup_lt_Some in Hl. by rewrite length_scanFrom in Hl. }
    rewrite (tape_step srv m q j a) by (done || lia).
    change (take (S k) (a :: ?l)) with (a :: take k l). f_equal.
    pose proof (IH (withCounter lb (GoInt.advance arch c (S j)))
                  (q + j + 1)%nat lb' rest) as IH'.
    cbn [servers roundRobinCounter withCounter] in IH'. fold srv c in IH'.
    apply IH'; [by apply advance_inRange| |lia|exact Hrest].
    intros Hvalid. rewrite (Hnext Hvalid), (Hcorr Hr).
    rewrite Zplus_mod_idemp_l. f_equal. lia.
Qed.

(** From construction the tape starts at its first cell, and its live
    cells are the live targets, over and over. *)
Lemma selections_new_sound fuel port srv k lb' r :
  selections arch fuel k (NewLoadBalancer port srv) = (lb', Ret r) ->
  r = take k (cycle k (liveTargets srv)).
Proof.
  intros Hrun.
  apply (selections_tape_sound fuel k k _ 0%nat) in Hrun; simpl; try lia.
  - by rewrite Hrun, drop_0; unfold liveTargets; rewrite filter_cycle.
  - split; [pose proof (minInt_neg arch)|pose proof (maxInt_pos arch)]; lia.
  - intros _. reflexivity.
Qed.

Lemma selections_new_run fuel port srv k :
  someAlive srv ->
  Z.of_nat k * len srv <= GoInt.maxInt arch ->
  (length srv <= S fuel)%nat ->
  exists c', 0 <= c' <= Z.of_nat k * len srv /\
    selections arch fuel k (NewLoadBalancer port srv) =
      (withCounter (NewLoadBalancer port srv) c',
       Ret (take k (cycle k (liveTargets srv)))).
Proof.
  intros Hsome Hmax Hfuel.
  destruct (selections_tape_run fuel k k (NewLoadBalancer port srv) 0%nat)
    as (c' & Hc' & Hrun); simpl; try done; try (unfold len in *; lia).
  cbn [servers NewLoadBalancer] in Hc', Hrun.
  exists c'. split; [unfold len; lia|].
  rewrite Hrun, drop_0. unfold liveTargets. by rewrite filter_cycle.
Qed.

End SelectionsOnTape.

Lemma liveTargets_allAlive srv : allAlive srv -> liveTargets srv = srv.
Proof. intros Hall. unfold liveTargets. by apply filter_all. Qed.

Lemma Forall_cycle {X} (P : X -> Prop) m (l : list X) :
  Forall P l -> Forall P (cycle m l).
Proof. intros Hl. induction m as [|m IH]; simpl; [done|]. by apply Forall_app. Qed.

(** A window of [len] cells of the tape is the pool rotated. *)
Lemma tape_window srv m q :
  srv <> [] -> (q + length srv <= m * length srv)%nat ->
  take (length srv) (drop q (cycle m srv))
  = scanFrom srv (Z.of_nat q `mod` len srv).
Proof.
  intros Hne Hq. apply list_eq. intros k.
  destruct (decide (k < length srv)%nat) as [Hk|Hk].
  - rewrite lookup_take_lt by done. by apply tape_scan.
  - rewrite lookup_take_ge by lia. symmetry. apply lookup_ge_None.
    rewrite length_scanFrom. lia.
Qed.

Lemma rotate_Permutation {X} n (l : list X) : rotate n l ≡ₚ l.
Proof.
  unfold rotate. rewrite Permutation_app_comm. by rewrite take_drop.
Qed.


(* ===================================================================== *)
(** ** Round robin over live pools *)
(* ===================================================================== *)

Lemma allAlive_ABC : allAlive [A; B; C].
Proof. repeat constructor. Qed.



(* ===================================================================== *)
(** ** The empty pool *)
(* ===================================================================== *)

(** C10. [NewLoadBalancer] performs no validation: given the empty slice it
    returns a router like for any other slice. On that router the first
    selection panics with an integer division by zero, before reading any
    target, and so does [serveProxy], which forwards nothing. *)
Theorem empty_pool_divide_by_zero
    (arch : GOARCH) (port : string) (fuel : nat)
    (rw : ResponseWriter) (req : Request) (w : world) :
  NewLoadBalancer port [] = {| port := port; roundRobinCounter := 0; servers := [] |}
  /\ getNextAvailableServer arch fuel (NewLoadBalancer port [])
     = (NewLoadBalancer port [], Panic DivideByZero)
  /\ serveProxy arch fuel rw req (NewLoadBalancer port [], w)
     = ((NewLoadBalancer port [], w), Panic DivideByZero).
Proof. split; [|split]; reflexivity. Qed.

(* ===================================================================== *)
(** ** Frame *)
(* ===================================================================== *)

Lemma serveProxy_router_state arch fuel rw req lb w :
  (serveProxy arch fuel rw req (lb, w)).1.1 = (getNextAvailableServer arch fuel lb).1.
Proof.
  unfold serveProxy. unfold_monad. simpl.
  destruct (getNextAvailableServer arch fuel lb) as [lb' [s| | |]]; simpl; try done.
  unfold emit. unfold_monad. simpl.
  by destruct (Serve s rw req _) as [w2 o].
Qed.

(** C8. A selection and a routed request write nothing but the counter:
    whatever the outcome (return, panic, still looping), the router left
    behind has the port and the target list (same length, order and
    elements) it had before the call. *)
Theorem only_the_counter_is_written
    (arch : GOARCH) (fuel : nat) (rw : ResponseWriter) (req : Request)
    (lb : LoadBalancer) (w : world) :
  let after_select := (getNextAvailableServer arch fuel lb).1 in
  let after_route := (serveProxy arch fuel rw req (lb, w)).1.1 in
  (port after_select = port lb /\ servers after_select = servers lb)
  /\ (port after_route = port lb /\ servers after_route = servers lb)
  /\ after_select = withCounter lb (roundRobinCounter after_select)
  /\ after_route = withCounter lb (roundRobinCounter after_route).
Proof.
  cbv zeta. rewrite serveProxy_router_state.
  pose proof (getNextAvailableServer_frame arch fuel lb) as Hf.
  split; [|split; [|split]]; try done; rewrite Hf; done.
Qed.

(* ===================================================================== *)
(** ** Pools with one dead target *)
(* ===================================================================== *)

Section OneDead.

Variables (l1 l2 : list Server) (d : Server).
Hypothesis d_dead : IsAlive d = false.
Hypothesis l1_alive : allAlive l1.
Hypothesis l2_alive : allAlive l2.

Lemma liveTargets_oneDead : liveTargets (l1 ++ d :: l2) = l1 ++ l2.
Proof.
  unfold liveTargets. rewrite filter_app, filter_cons_False by congruence.
  by rewrite !filter_all.
Qed.

Lemma someAlive_oneDead : l1 ++ l2 <> [] -> someAlive (l1 ++ d :: l2).
Proof.
  intros Hne. apply Exists_exists.
  destruct (l1 ++ l2) as [|x l] eqn:Hl; [done|].
  assert (x ∈ l1 ++ l2) as Hx by (rewrite Hl; left).
  exists x. apply elem_of_app in Hx as [Hx|Hx].
  - split; [apply elem_of_app; by left|].
    by apply (proj1 (Forall_forall _ _) l1_alive).
  - split; [apply elem_of_app; right; by right|].
    by apply (proj1 (Forall_forall _ _) l2_alive).
Qed.

End OneDead.

Lemma returned_target_is_live arch fuel lb lb' s :
  getNextAvailableServer arch fuel lb = (lb', Ret s) ->
  IsAlive s = true /\ s ∈ servers lb.
Proof.
  intros Hrun. apply getNextAvailableServer_inv in Hrun as (j & _ & _ & _ & Hs & Ha).
  split; [done|]. apply serverAt_Ret in Hs as (_ & _ & Hs).
  by apply list_elem_of_lookup_2 in Hs.
Qed.

(** C2. In a pool where exactly one target [d] is not live (the targets
    before it, [l1], and after it, [l2], are live): no selection, in any
    state of the router, returns [d] - what is returned is live and is one
    of [l1 ++ l2]; the targets that consecutive selections return from
    construction on are the live targets in construction order, repeated
    cyclically, and the selections do return them as long as the counter
    stays below the largest int. For [A, B, C] with B not live, three
    selections return A, C, A. *)
Theorem one_dead_target_is_skipped_in_order
    (arch : GOARCH) (port : string) (l1 l2 : list Server) (d : Server) :
  IsAlive d = false -> allAlive l1 -> allAlive l2 ->
  let srv := l1 ++ d :: l2 in
  (forall fuel lb lb' s,
     servers lb = srv ->
     getNextAvailableServer arch fuel lb = (lb', Ret s) ->
     IsAlive s = true /\ s ∈ l1 ++ l2)
  /\ (forall fuel k lb' r,
        selections arch fuel k (NewLoadBalancer port srv) = (lb', Ret r) ->
        r = take k (cycle k (l1 ++ l2)))
  /\ (forall fuel k,
        l1 ++ l2 <> [] -> (length srv <= S fuel)%nat ->
        Z.of_nat k * len srv <= GoInt.maxInt arch ->
        exists lb',
          selections arch fuel k (NewLoadBalancer port srv)
          = (lb', Ret (take k (cycle k (l1 ++ l2)))))
  /\ (forall fuel,
        selections arch (S fuel) 3 (NewLoadBalancer port [A; B_down; C])
        = (withCounter (NewLoadBalancer port [A; B_down; C]) 4, Ret [A; C; A])).
Proof.
  intros Hd Hl1 Hl2 srv. split; [|split; [|split]].
  - intros fuel lb lb' s Hsrv Hrun.
    apply returned_target_is_live in Hrun as [Ha Hin]. split; [done|].
    rewrite Hsrv in Hin. unfold srv in Hin.
    rewrite elem_of_app, elem_of_cons in Hin. rewrite elem_of_app.
    destruct Hin as [?|[->|?]]; [by left|congruence|by right].
  - intros fuel k lb' r Hrun. apply selections_new_sound in Hrun.
    subst srv. by rewrite Hrun, liveTargets_oneDead.
  - intros fuel k Hne Hfuel Hmax.
    destruct (selections_new_run arch fuel port srv k) as (c' & _ & Hrun);
      [by apply someAlive_oneDead|done|done|].
    eexists. rewrite Hrun. subst srv. by rewrite liveTargets_oneDead.
  - intros fuel. destruct arch, fuel; reflexivity.
Qed.

Lemma one_dead_target_is_skipped_in_order_witness :
  exists lb',
    selections arch64 2 5 (NewLoadBalancer "8080" [A; B_down; C])
    = (lb', Ret [A; C; A; C; A]).
Proof.
  apply (proj1 (proj2 (proj2
           (one_dead_target_is_skipped_in_order arch64 "8080" [A] [C] B_down
              eq_refl ltac:(repeat constructor) ltac:(repeat constructor)))) 2%nat 5%nat).
  - discriminate.
  - simpl. lia.
  - vm_compute. discriminate.
Defined.

(* ===================================================================== *)
(** ** Termination of the skip loop *)
(* ===================================================================== *)

Section Termination.

Variable arch : GOARCH.
Implicit Types (lb : LoadBalancer) (srv : list Server) (c : Z).

Lemma allDead_lookup srv i s : allDead srv -> srv !! i = Some s -> IsAlive s = false.
Proof. intros Hall Hs. exact (Forall_lookup_1 _ srv i s Hall Hs). Qed.

Lemma allDead_serverAt srv c s : allDead srv -> serverAt srv c = Ret s -> IsAlive s = false.
Proof.
  intros Hall Hs. apply serverAt_Ret in Hs as (_ & _ & Hs). by eapply allDead_lookup.
Qed.

(** With some target live, [len] iterations are enough for the loop to
    stop, by a return or by a panic. *)
Lemma getNextAvailableServer_stops fuel lb :
  let c := roundRobinCounter lb in
  let srv := servers lb in
  srv <> [] -> GoInt.inRange arch c -> someAlive srv ->
  (length srv <= S fuel)%nat ->
  (getNextAvailableServer arch fuel lb).2 <> Spin.
Proof.
  intros c srv Hne Hc Hsome Hfuel.
  destruct (getNextAvailableServer arch fuel lb) as [lb' o] eqn:Hrun.
  destruct o as [a|e|x|]; try done. exfalso.
  apply getNextAvailableServer_inv in Hrun as (j & _ & Hdead & _ & -> & Hlast).
  fold c srv in Hdead, Hlast.
  assert (forall k, (k <= fuel)%nat -> deadAt srv (GoInt.advance arch c k)) as Hall.
  { intros k Hk. destruct (decide (k = fuel)) as [->|]; [done|]. apply Hdead. lia. }
  apply Exists_exists in Hsome as (x & Hx & Hax).
  apply (elem_of_rotate _ (Z.to_nat (Z.rem c (len srv)))) in Hx.
  apply list_elem_of_lookup in Hx as [k Hk].
  assert ((k < length srv)%nat) as Hklt.
  { apply lookup_lt_Some in Hk. by rewrite length_rotate in Hk. }
  fold (scanFrom srv (Z.rem c (len srv))) in Hk.
  rewrite (scan_lookup arch) in Hk; try done.
  - destruct (Hall k ltac:(lia)) as (d & Hd & Hdd).
    apply serverAt_Ret in Hd as (_ & _ & Hd). congruence.
  - intros k' Hk'. destruct (Hall k' ltac:(lia)) as (d & Hd & _).
    by apply serverAt_Ret in Hd as (_ & ? & _).
Qed.

(** With every target dead, the first [k] iterations only move the
    counter, as long as it stays below the largest int. *)
Lemma skipDead_allDead_prefix k : forall f lb s,
  let c := roundRobinCounter lb in
  let srv := servers lb in
  allDead srv -> 0 <= c -> c + Z.of_nat k <= GoInt.maxInt arch ->
  serverAt srv c = Ret s ->
  exists s', serverAt srv (c + Z.of_nat k) = Ret s' /\
    skipDead arch (k + f) s lb = skipDead arch f s' (withCounter lb (c + Z.of_nat k)).
Proof.
  induction k as [|k IH]; intros f lb s c srv Hall Hc Hmax Hs.
  - exists s. rewrite Z.add_0_r. split; [done|]. subst c.
    by rewrite withCounter_same.
  - assert (srv <> []) as Hne by (by apply serverAt_Ret in Hs as (? & _)).
    destruct (serverAt_nonneg srv (c + 1) Hne ltac:(lia)) as (s1 & Hs1 & _).
    change (S k + f)%nat with (S (k + f)).
    rewrite skipDead_dead_S by (by eapply allDead_serverAt). cbv zeta.
    fold c srv. pose proof (minInt_neg arch).
    rewrite GoIntFacts.incr_small by lia. simpl roundRobinCounter. rewrite Hs1.
    destruct (IH f (withCounter lb (c + 1)) s1) as (s' & Hs' & Hrun);
      simpl; fold srv; try done; try lia.
    simpl in Hs', Hrun. fold srv in Hs'.
    exists s'. split.
    + rewrite <- Hs'. f_equal. lia.
    + rewrite Hrun. f_equal. unfold withCounter. simpl. f_equal. lia.
Qed.

Lemma getNextAvailableServer_allDead_spins fuel lb :
  let c := roundRobinCounter lb in
  let srv := servers lb in
  srv <> [] -> allDead srv -> 0 <= c -> c + Z.of_nat fuel <= GoInt.maxInt arch ->
  getNextAvailableServer arch fuel lb = (withCounter lb (c + Z.of_nat fuel), Spin).
Proof.
  intros c srv Hne Hall Hc Hmax. rewrite getNextAvailableServer_eq. fold c srv.
  destruct (serverAt_nonneg srv c Hne Hc) as (s & Hs & _). rewrite Hs.
  destruct (skipDead_allDead_prefix fuel 0 lb s) as (s' & Hs' & Hrun); try done.
  rewrite Nat.add_0_r in Hrun. rewrite Hrun.
  rewrite skipDead_dead_O; [done|]. by eapply allDead_serverAt.
Qed.

(** A pool made of a single dead target: every counter indexes it, and
    the loop never stops. *)
Lemma skipDead_single_dead fuel : forall lb d,
  servers lb = [d] -> IsAlive d = false ->
  skipDead arch fuel d lb =
    (withCounter lb (GoInt.advance arch (roundRobinCounter lb) fuel), Spin).
Proof.
  induction fuel as [|fuel IH]; intros lb d Hsrv Hd.
  - rewrite skipDead_dead_O by done. by rewrite withCounter_same.
  - rewrite skipDead_dead_S by done. cbv zeta. rewrite Hsrv.
    unfold serverAt, sliceIndex. simpl len. simpl (_ =? _).
    rewrite Z.rem_1_r. simpl.
    rewrite IH by done. rewrite <- (advance_succ arch), GoIntFacts.advance_S.
    reflexivity.
Qed.

End Termination.

Lemma allDead_A_B : allDead [A_down; B_down].
Proof. repeat constructor. Qed.

(** C3 (what the code does when every target is dead). Two dead targets
    on a 32-bit platform, from construction: the skip loop does not run
    forever. After MaxInt increments the counter wraps to MinInt, whose
    remainder by 2 is 0; one increment later the remainder is -1 and the
    indexing [lb.servers[-1]] panics with index out of range, MaxInt + 2
    iterations after the call began, leaving the counter at MinInt + 1.
    The defect is the signed counter: once it has wrapped, its remainder
    is negative. *)
Lemma all_dead_pool_panics_after_wraparound :
  getNextAvailableServer arch32 (Z.to_nat (GoInt.maxInt arch32) + 2)
    (NewLoadBalancer "8080" [A_down; B_down])
  = (withCounter (NewLoadBalancer "8080" [A_down; B_down]) (GoInt.minInt arch32 + 1),
     Panic IndexOutOfRange).
Proof.
  rewrite getNextAvailableServer_eq.
  change (serverAt _ _) with (Ret A_down).
  destruct (skipDead_allDead_prefix arch32 (Z.to_nat (GoInt.maxInt arch32)) 2
              (NewLoadBalancer "8080" [A_down; B_down]) A_down)
    as (s' & Hs' & Hrun).
  - apply allDead_A_B.
  - apply Z.le_refl.
  - rewrite Z2Nat.id by (apply Z.lt_le_incl, maxInt_pos). apply Z.le_refl.
  - reflexivity.
  - rewrite Hrun. clear Hrun.
    rewrite Z2Nat.id in * by (apply Z.lt_le_incl, maxInt_pos).
    vm_compute in Hs'. injection Hs' as <-.
    vm_compute. reflexivity.
Qed.

(** The skip loop, away from the overflow. Over a non-empty target list:
    when some target is live the loop stops within [len(targets)]
    iterations, in every state of the router, and - the counter being
    non-negative and at least [len(targets)] below the largest int - it
    stops by returning a live target, the counter having moved by at least
    1 and at most [len(targets)]. When every target is dead, no call
    returns a target or any other result; from a non-negative counter,
    [fuel] iterations make [fuel] increments and leave the loop running,
    for every [fuel] that keeps the counter below the largest int; with a
    single target this holds from every counter and for every [fuel]. *)
Theorem skip_loop_termination (arch : GOARCH) (fuel : nat) (lb : LoadBalancer) :
  let c := roundRobinCounter lb in
  let srv := servers lb in
  srv <> [] -> GoInt.inRange arch c ->
  (someAlive srv -> (length srv <= S fuel)%nat ->
     (getNextAvailableServer arch fuel lb).2 <> Spin
     /\ (0 <= c -> c + len srv <= GoInt.maxInt arch ->
         exists lb' a,
           getNextAvailableServer arch fuel lb = (lb', Ret a)
           /\ IsAlive a = true
           /\ c < roundRobinCounter lb' <= c + len srv))
  /\ (allDead srv ->
      (forall a, (getNextAvailableServer arch fuel lb).2 <> Ret a)
      /\ (0 <= c -> c + Z.of_nat fuel <= GoInt.maxInt arch ->
          getNextAvailableServer arch fuel lb
          = (withCounter lb (c + Z.of_nat fuel), Spin))
      /\ (length srv = 1%nat ->
          getNextAvailableServer arch fuel lb
          = (withCounter lb (GoInt.advance arch c fuel), Spin))).
Proof.
  intros c srv Hne Hc. split.
  - intros Hsome Hfuel. split.
    + by apply getNextAvailableServer_stops.
    + intros Hc0 Hmax.
      destruct (firstLive_exists srv (c `mod` len srv) Hsome) as (j & a & Hfind & Hj).
      exists (withCounter lb (c + Z.of_nat j + 1)), a.
      split; [|split].
      * apply getNextAvailableServer_run; fold c srv; try done; unfold len in *; lia.
      * by eapply firstLive_alive.
      * simpl. unfold len. lia.
  - intros Hall. split; [|split].
    + intros a Hret.
      destruct (getNextAvailableServer arch fuel lb) as [lb' o] eqn:Hrun.
      simpl in Hret. subst o.
      apply returned_target_is_live in Hrun as [Ha Hin].
      apply list_elem_of_lookup in Hin as [i Hi].
      pose proof (allDead_lookup _ _ _ Hall Hi). congruence.
    + intros Hc0 Hmax. by apply getNextAvailableServer_allDead_spins.
    + intros Hlen. destruct srv as [|d [|]] eqn:Hsrv; try done.
      rewrite getNextAvailableServer_eq. fold c. unfold srv in Hsrv. rewrite Hsrv.
      unfold serverAt, sliceIndex. simpl len. simpl (_ =? _).
      rewrite Z.rem_1_r. simpl.
      assert (IsAlive d = false) as Hd by (by inversion Hall).
      by rewrite skipDead_single_dead.
Qed.

Lemma skip_loop_termination_witness :
  (getNextAvailableServer arch64 2 (NewLoadBalancer "8080" [A_down; B_down; C])).2 <> Spin
  /\ (forall a, (getNextAvailableServer arch64 2 (NewLoadBalancer "8080" [A_down; B_down])).2
                <> Ret a).
Proof.
  split.
  - refine (proj1 (proj1 (skip_loop_termination arch64 2
              (NewLoadBalancer "8080" [A_down; B_down; C]) _ _) _ _)).
    + discriminate.
    + vm_compute. split; discriminate.
    + apply Exists_exists. exists C. split; [repeat constructor|reflexivity].
    + simpl. lia.
  - refine (proj1 (proj2 (skip_loop_termination arch64 2
              (NewLoadBalancer "8080" [A_down; B_down]) _ _) _)).
    + discriminate.
    + vm_compute. split; discriminate.
    + apply allDead_A_B.
Defined.

(* ===================================================================== *)
(** ** The counter: advance, determinism, overflow *)
(* ===================================================================== *)

Lemma allAlive_A : allAlive [A].
Proof. repeat constructor. Qed.

(** After MaxInt selections on a live pool the counter is MaxInt. *)
Lemma reachable_maxInt arch port srv :
  srv <> [] -> allAlive srv ->
  reachable arch port srv (withCounter (NewLoadBalancer port srv) (GoInt.maxInt arch)).
Proof.
  intros Hne Hall.
  pose proof (reachable_selections arch port srv 0 (Z.to_nat (GoInt.maxInt arch))
                (NewLoadBalancer port srv) (reach_new arch port srv)) as Hreach.
  destruct (selections_allAlive_counter arch 0 (Z.to_nat (GoInt.maxInt arch))
              (NewLoadBalancer port srv)) as [r Hr]; try done.
  - cbn [roundRobinCounter NewLoadBalancer].
    rewrite Z2Nat.id by (apply Z.lt_le_incl, maxInt_pos). lia.
  - rewrite Hr in Hreach. cbn [fst roundRobinCounter NewLoadBalancer] in Hreach.
    by rewrite Z2Nat.id, Z.add_0_l in Hreach by (apply Z.lt_le_incl, maxInt_pos).
Qed.

(** One live target on a 32-bit platform, MaxInt requests served: the next
    selection returns the target and takes the counter from MaxInt to
    MinInt. *)
Lemma counter_wraps_at_maxInt :
  reachable arch32 "8080" [A]
    (withCounter (NewLoadBalancer "8080" [A]) (GoInt.maxInt arch32))
  /\ getNextAvailableServer arch32 0
       (withCounter (NewLoadBalancer "8080" [A]) (GoInt.maxInt arch32))
     = (withCounter (NewLoadBalancer "8080" [A]) (GoInt.minInt arch32), Ret A)
  /\ ~ (GoInt.maxInt arch32 + 1 <= GoInt.minInt arch32).
Proof.
  split; [|split].
  - apply reachable_maxInt; [done|apply allAlive_A].
  - reflexivity.
  - vm_compute. intros H. by apply H.
Qed.

(** C4 (amended). In a state with a non-empty target list and some live
    target, whose counter is non-negative and at least [len(targets)] below
    the largest int, a call returns, moves the counter by at least 1 (and
    at most [len(targets)]), and returns the first live target of the scan
    that starts at index [cursor mod len(targets)]. In every state, a call
    that returns has returned that target, so that two states with the
    same targets and the same [cursor % len(targets)] never return
    different targets. *)
Theorem selection_advances_and_is_determined
    (arch : GOARCH) (fuel : nat) (lb : LoadBalancer) :
  let c := roundRobinCounter lb in
  let srv := servers lb in
  srv <> [] -> someAlive srv -> GoInt.inRange arch c ->
  (0 <= c -> c + len srv <= GoInt.maxInt arch -> (length srv <= S fuel)%nat ->
   exists j a,
     firstLive (scanFrom srv (c `mod` len srv)) = Some (j, a)
     /\ getNextAvailableServer arch fuel lb
        = (withCounter lb (c + Z.of_nat j + 1), Ret a)
     /\ c + 1 <= c + Z.of_nat j + 1 <= c + len srv)
  /\ (forall lb' a,
        getNextAvailableServer arch fuel lb = (lb', Ret a) ->
        exists j, firstLive (scanFrom srv (Z.rem c (len srv))) = Some (j, a))
  /\ (forall fuel2 lb2 lb1' lb2' a1 a2,
        servers lb2 = srv ->
        GoInt.inRange arch (roundRobinCounter lb2) ->
        Z.rem (roundRobinCounter lb2) (len srv) = Z.rem c (len srv) ->
        getNextAvailableServer arch fuel lb = (lb1', Ret a1) ->
        getNextAvailableServer arch fuel2 lb2 = (lb2', Ret a2) ->
        a1 = a2).
Proof.
  intros c srv Hne Hsome Hc. split; [|split].
  - intros Hc0 Hmax Hfuel.
    destruct (firstLive_exists srv (c `mod` len srv) Hsome) as (j & a & Hfind & Hj).
    exists j, a. split; [done|split].
    + apply getNextAvailableServer_run; fold c srv; try done; unfold len in *; lia.
    + unfold len. lia.
  - intros lb' a Hrun.
    apply getNextAvailableServer_sound in Hrun as (_ & _ & j & Hfind & _); [|done].
    by exists j.
  - intros fuel2 lb2 lb1' lb2' a1 a2 Hsrv Hc2 Hrem Hrun1 Hrun2.
    apply getNextAvailableServer_sound in Hrun1 as (_ & _ & j1 & Hfind1 & _); [|done].
    apply getNextAvailableServer_sound in Hrun2 as (_ & _ & j2 & Hfind2 & _); [|done].
    rewrite Hsrv, Hrem in Hfind2. fold c srv in Hfind1. congruence.
Qed.

Lemma selection_advances_and_is_determined_witness :
  exists j a,
    firstLive (scanFrom [A; B_down; C] (1 `mod` 3)) = Some (j, a)
    /\ getNextAvailableServer arch64 2
         (withCounter (NewLoadBalancer "8080" [A; B_down; C]) 1)
       = (withCounter (NewLoadBalancer "8080" [A; B_down; C]) (1 + Z.of_nat j + 1), Ret a)
    /\ 1 + 1 <= 1 + Z.of_nat j + 1 <= 1 + 3.
Proof.
  refine (proj1 (selection_advances_and_is_determined arch64 2
            (withCounter (NewLoadBalancer "8080" [A; B_down; C]) 1) _ _ _) _ _ _).
  - discriminate.
  - apply Exists_exists. exists C. split; [repeat constructor|reflexivity].
  - vm_compute. split; discriminate.
  - discriminate.
  - vm_compute. discriminate.
  - simpl. lia.
Defined.

(** C5 (what the code does). Three live targets: the router state in which
    the counter is MinInt is reached from construction (after MaxInt + 1
    selections, all of which returned), and in that state the index
    [cursor % 3] is negative: every selection panics with an index out of
    range and leaves the counter where it is. *)
Theorem index_out_of_range_after_overflow (arch : GOARCH) :
  exists lb,
    reachable arch "8080" [A; B; C] lb
    /\ roundRobinCounter lb = GoInt.minInt arch
    /\ Z.rem (roundRobinCounter lb) (len (servers lb)) = -2
    /\ forall fuel,
         getNextAvailableServer arch fuel lb = (lb, Panic IndexOutOfRange).
Proof.
  exists (withCounter (NewLoadBalancer "8080" [A; B; C]) (GoInt.minInt arch)).
  split; [|split; [|split]].
  - pose proof (reach_call arch "8080" [A; B; C] 0 _
                  (reachable_maxInt arch "8080" [A; B; C] ltac:(done) allAlive_ABC))
      as Hreach.
    destruct (getNextAvailableServer_allAlive arch 0
                (withCounter (NewLoadBalancer "8080" [A; B; C]) (GoInt.maxInt arch)))
      as (s & _ & Hrun); [done|apply allAlive_ABC| |].
    + apply Z.lt_le_incl, maxInt_pos.
    + rewrite Hrun in Hreach. cbn [fst roundRobinCounter withCounter] in Hreach.
      by rewrite GoIntFacts.incr_maxInt in Hreach.
  - reflexivity.
  - by destruct arch.
  - intros fuel. rewrite getNextAvailableServer_eq. by destruct arch.
Qed.

(* ===================================================================== *)
(** ** Routing a request *)
(* ===================================================================== *)

(** C6. [serveProxy] performs one selection and hands the request to the
    target that selection returned, once: its effect on the router is the
    effect of one call of [getNextAvailableServer]; its effect on the world
    is the note it prints followed by the effect of that target's [Serve];
    when the selection does not return, nothing is printed or forwarded.
    There is no retry: when the selected target is a [simpleServer] whose
    backend cannot be reached, the request ends with the 502 written by the
    relay, after one round trip, with the router in the state one selection
    left it in. *)
Theorem serveProxy_selects_once_without_retry
    (arch : GOARCH) (fuel : nat) (rw : ResponseWriter) (req : Request)
    (lb : LoadBalancer) (w : world) :
  (serveProxy arch fuel rw req (lb, w)).1.1 = (getNextAvailableServer arch fuel lb).1
  /\ (forall lb' target,
        getNextAvailableServer arch fuel lb = (lb', Ret target) ->
        serveProxy arch fuel rw req (lb, w)
        = ((lb', (Serve target rw req (w ++ [forwardingNote target])).1),
           (Serve target rw req (w ++ [forwardingNote target])).2))
  /\ (forall lb' o,
        getNextAvailableServer arch fuel lb = (lb', o) ->
        ~ returned o ->
        (serveProxy arch fuel rw req (lb, w)).1 = (lb', w))
  /\ (forall lb' (s : simpleServer) u,
        getNextAvailableServer arch fuel lb = (lb', Ret (asServer s)) ->
        Target (proxy s) = Some u ->
        Transport (proxy s) u req = None ->
        serveProxy arch fuel rw req (lb, w)
        = ((lb', w ++ [forwardingNote (asServer s); RoundTrip u req;
                       Write rw {| StatusCode := StatusBadGateway; Payload := "" |}]),
           Ret tt)).
Proof.
  split; [apply serveProxy_router_state|]. split; [|split].
  - intros lb' target Hsel. unfold serveProxy. unfold_monad. simpl. rewrite Hsel.
    unfold emit. unfold_monad. simpl. fold (forwardingNote target).
    by destruct (Serve target rw req _) as [w' [[]| | |]].
  - intros lb' o Hsel Hno. unfold serveProxy. unfold_monad. simpl. rewrite Hsel.
    by destruct o.
  - intros lb' s u Hsel Hu Hdown. unfold serveProxy. unfold_monad. simpl. rewrite Hsel.
    unfold emit. unfold_monad. simpl. fold (forwardingNote (asServer s)).
    unfold Serve. simpl. unfold Serve. simpl. unfold ServeHTTP. rewrite Hu.
    unfold emit. unfold_monad. simpl. rewrite Hdown. simpl.
    by rewrite <- !app_assoc.
Qed.

Lemma serveProxy_selects_once_without_retry_witness :
  let pool := [asServer (unreachableBackend "a.example");
               asServer (unreachableBackend "b.example")] in
  let req := {| Method := "GET"; Path := "/"; Body := "" |} in
  serveProxy arch64 0 7%nat req (NewLoadBalancer "8080" pool, [])
  = ((withCounter (NewLoadBalancer "8080" pool) 1,
      [forwardingNote (asServer (unreachableBackend "a.example"));
       RoundTrip {| Scheme := "https"; Host := "a.example" |} req;
       Write 7%nat {| StatusCode := 502; Payload := "" |}]),
     Ret tt).
Proof.
  intros pool req.
  apply (proj2 (proj2 (proj2
           (serveProxy_selects_once_without_retry arch64 0 7%nat req
              (NewLoadBalancer "8080" pool) [])))
           (withCounter (NewLoadBalancer "8080" pool) 1)
           (unreachableBackend "a.example")
           {| Scheme := "https"; Host := "a.example" |});
    reflexivity.
Defined.

(* ===================================================================== *)
(** ** Constructing an upstream target *)
(* ===================================================================== *)

(** C7. [newSimpleServer] parses the address. When the parse reports an
    error the process prints it and exits with status 1 (non-zero): no
    target and no error value is returned. When the parse succeeds the
    call returns, prints nothing, and the target it returns has the given
    address as its [Address()], is live, and relays to the parsed URL. At
    startup, an upstream address that does not parse ends [main] with exit
    status 1 before any request is served; when the three addresses parse,
    the router is built over the three targets, counter 0. *)
Theorem newSimpleServer_parses_or_exits
    (url_Parse : string -> option URL * option string)
    (DefaultTransport : URL -> Request -> option Response)
    (address : string) (w : world) :
  (forall u e,
     url_Parse address = (u, Some e) ->
     newSimpleServer url_Parse DefaultTransport address w
     = (w ++ [Stdout ("error: " +:+ e +:+ newline)], Exit 1))
  /\ (forall u,
        url_Parse address = (u, None) ->
        exists s,
          newSimpleServer url_Parse DefaultTransport address w = (w, Ret s)
          /\ Address s = address
          /\ IsAlive s = true
          /\ Target (proxy s) = u)
  /\ (forall a u e,
        a ∈ upstreams -> url_Parse a = (u, Some e) ->
        (main_startup url_Parse DefaultTransport w).2 = Exit 1)
  /\ ((forall a, a ∈ upstreams -> (url_Parse a).2 = None) ->
      exists lb,
        (main_startup url_Parse DefaultTransport w).2 = Ret lb
        /\ roundRobinCounter lb = 0
        /\ port lb = "8080"
        /\ map Address (servers lb) = upstreams
        /\ allAlive (servers lb)).
Proof.
  split; [|split; [|split]].
  - intros u e Hparse. unfold newSimpleServer. by rewrite Hparse.
  - intros u Hparse. unfold newSimpleServer. rewrite Hparse.
    eexists. split; [reflexivity|]. by split.
  - intros a u e Ha Hparse. unfold main_startup, newSimpleServer, upstreams in *.
    destruct (url_Parse "https://www.google.com") as [u1 [e1|]] eqn:H1; [done|].
    destruct (url_Parse "https://www.bing.com") as [u2 [e2|]] eqn:H2; [done|].
    destruct (url_Parse "https://www.duckduckgo.com") as [u3 [e3|]] eqn:H3; [done|].
    apply elem_of_cons in Ha as [->|Ha]; [congruence|].
    apply elem_of_cons in Ha as [->|Ha]; [congruence|].
    apply elem_of_cons in Ha as [->|Ha]; [congruence|].
    by apply elem_of_nil in Ha.
  - intros Hall. unfold main_startup, newSimpleServer, upstreams in *.
    pose proof (Hall "https://www.google.com" ltac:(repeat constructor)) as H1.
    pose proof (Hall "https://www.bing.com" ltac:(repeat constructor)) as H2.
    pose proof (Hall "https://www.duckduckgo.com" ltac:(repeat constructor)) as H3.
    destruct (url_Parse "https://www.google.com") as [u1 o1] eqn:E1.
    destruct (url_Parse "https://www.bing.com") as [u2 o2] eqn:E2.
    destruct (url_Parse "https://www.duckduckgo.com") as [u3 o3] eqn:E3.
    simpl in H1, H2, H3. subst o1 o2 o3.
    eexists. split; [reflexivity|].
    split; [done|split; [done|split; [done|]]]. repeat constructor.
Qed.

Lemma newSimpleServer_parses_or_exits_witness :
  newSimpleServer parseSample (fun _ _ => None) ":8080" []
  = ([Stdout ("error: missing protocol scheme" +:+ newline)], Exit 1).
Proof.
  apply (proj1 (newSimpleServer_parses_or_exits parseSample (fun _ _ => None) ":8080" [])
           None "missing protocol scheme").
  reflexivity.
Defined.

(* ===================================================================== *)
(** ** Concurrent callers *)
(* ===================================================================== *)

Section AloneFacts.

Import Goroutines.
Variable arch : GOARCH.

Lemma alone_add srv n1 n2 c p :
  alone arch srv (n1 + n2) c p
  = alone arch srv n2 (alone arch srv n1 c p).1 (alone arch srv n1 c p).2.
Proof.
  unfold alone. rewrite Nat.add_comm, Nat.iter_add.
  by destruct (Nat.iter n1 _ (c, p)).
Qed.

(** Alone, a goroutine does what the sequential code does. *)
Lemma alone_skipDead fuel : forall s lb lb' o,
  skipDead arch fuel s lb = (lb', o) -> o <> Spin ->
  exists n,
    alone arch (servers lb) n (roundRobinCounter lb) (AtTest s) =
      match o with
      | Ret a => (roundRobinCounter lb', AtExitLoad a)
      | _ => (roundRobinCounter lb', Ended o)
      end.
Proof.
  induction fuel as [|fuel IH]; intros s lb lb' o Hrun Ho.
  - cbn [skipDead] in Hrun. destruct (IsAlive s) eqn:Ha; unfold_monad; simplify_eq.
    exists 1%nat. unfold alone. simpl. by rewrite Ha.
  - destruct (IsAlive s) eqn:Ha.
    + rewrite skipDead_alive in Hrun by done. simplify_eq.
      exists 1%nat. unfold alone. simpl. by rewrite Ha.
    + rewrite skipDead_dead_S in Hrun by done. cbv zeta in Hrun.
      simpl roundRobinCounter in Hrun.
      destruct (serverAt (servers lb) _) as [s'|e|x|] eqn:Hs'.
      * apply IH in Hrun as [n Hn]; [|done].
        exists (4 + n)%nat. rewrite alone_add.
        unfold alone at 2 3. simpl. rewrite Ha. simpl.
        rewrite Hs'. exact Hn.
      * simplify_eq. exists 4%nat. unfold alone. simpl. rewrite Ha. simpl.
        by rewrite Hs'.
      * simplify_eq. exists 4%nat. unfold alone. simpl. rewrite Ha. simpl.
        by rewrite Hs'.
      * by simplify_eq.
Qed.

Lemma alone_getNextAvailableServer fuel lb lb' o :
  getNextAvailableServer arch fuel lb = (lb', o) -> o <> Spin ->
  exists n, alone arch (servers lb) n (roundRobinCounter lb) AtIndex
            = (roundRobinCounter lb', Ended o).
Proof.
  rewrite getNextAvailableServer_eq.
  destruct (serverAt (servers lb) (roundRobinCounter lb)) as [s|e|x|] eqn:Hs.
  - destruct (skipDead arch fuel s lb) as [lb1 o1] eqn:Hrun. intros Heq Ho.
    assert (o1 <> Spin) as Ho1 by (destruct o1; by simplify_eq).
    destruct (alone_skipDead fuel s lb lb1 o1 Hrun Ho1) as [n Hn].
    destruct o1 as [a|e|x|]; simplify_eq.
    + exists (1 + (n + 2))%nat. rewrite alone_add. unfold alone at 2 3. simpl.
      rewrite Hs. cbn [fst snd]. rewrite alone_add, Hn. reflexivity.
    + exists (1 + n)%nat. rewrite alone_add. unfold alone at 2 3. simpl.
      rewrite Hs. exact Hn.
    + exists (1 + n)%nat. rewrite alone_add. unfold alone at 2 3. simpl.
      rewrite Hs. exact Hn.
  - intros. simplify_eq. exists 1%nat. unfold alone. simpl. by rewrite Hs.
  - intros. simplify_eq. exists 1%nat. unfold alone. simpl. by rewrite Hs.
  - intros. by simplify_eq.
Qed.

End AloneFacts.

(** C9 (what the code does). Three goroutines each route one request on a
    router over the two live targets A and B, counter 0. Under the schedule
    in which each of them reads the counter before any of them writes it,
    all three return A: B is selected 0 times, fewer than floor(3/2) = 1,
    and the three increments leave the counter at 1, two of them lost. The
    same requests served one after the other return A, B, A and leave the
    counter at 3. *)
Theorem unsynchronised_counter_loses_selections (arch : GOARCH) :
  let start : Goroutines.system :=
    (0, [Goroutines.AtIndex; Goroutines.AtIndex; Goroutines.AtIndex]) in
  let raced := Goroutines.run arch [A; B] Goroutines.racy start in
  let queued := Goroutines.run arch [A; B] Goroutines.serial start in
  raced = (1, [Goroutines.Ended (Ret A); Goroutines.Ended (Ret A);
               Goroutines.Ended (Ret A)])
  /\ Goroutines.completed raced.2 = 3%nat
  /\ Goroutines.selected "B" raced.2 = 0%nat
  /\ (Goroutines.selected "B" raced.2 < 3 / 2)%nat
  /\ raced.1 <> 3
  /\ queued = (3, [Goroutines.Ended (Ret A); Goroutines.Ended (Ret B);
                   Goroutines.Ended (Ret A)])
  /\ Goroutines.selected "A" queued.2 = 2%nat
  /\ Goroutines.selected "B" queued.2 = 1%nat.
Proof. destruct arch; vm_compute; repeat split; try reflexivity; discriminate. Qed.

(* ===================================================================== *)
(** * Further properties of the code *)
(* ===================================================================== *)

(** ** What every reachable router satisfies *)

(** X1. Every router state reached from [NewLoadBalancer port srv] by calls
    of the selection, whatever their outcome, still has the port and the
    target list given to the constructor, and a counter that is a value of
    type [int]. *)
Theorem reachable_router_invariant
    (arch : GOARCH) (port0 : string) (srv : list Server) (lb : LoadBalancer) :
  reachable arch port0 srv lb ->
  port lb = port0 /\ servers lb = srv
  /\ GoInt.inRange arch (roundRobinCounter lb).
Proof.
  induction 1 as [|fuel lb Hlb (Hport & Hsrv & Hc)].
  - split; [done|split; [done|]]. simpl.
    split; [pose proof (minInt_neg arch)|pose proof (maxInt_pos arch)]; lia.
  - pose proof (getNextAvailableServer_frame arch fuel lb) as Hframe.
    destruct (getNextAvailableServer arch fuel lb) as [lb' o] eqn:Hrun.
    simpl in *.
    apply getNextAvailableServer_inv in Hrun as (j & _ & _ & Hend).
    rewrite Hframe. simpl. split; [done|split; [done|]].
    destruct o as [a|e|x|].
    + destruct Hend as (-> & _). by apply advance_inRange.
    + destruct Hend as (-> & _). by apply advance_inRange.
    + done.
    + destruct Hend as (-> & _). by apply advance_inRange.
Qed.

Lemma reachable_router_invariant_witness :
  port (getNextAvailableServer arch32 1 (NewLoadBalancer "8080" [A; B_down; C])).1 = "8080"
  /\ servers (getNextAvailableServer arch32 1 (NewLoadBalancer "8080" [A; B_down; C])).1
     = [A; B_down; C]
  /\ GoInt.inRange arch32
       (roundRobinCounter
          (getNextAvailableServer arch32 1 (NewLoadBalancer "8080" [A; B_down; C])).1).
Proof.
  apply (reachable_router_invariant arch32 "8080" [A; B_down; C]).
  apply reach_call. apply reach_new.
Defined.

(** ** Live pools, any number of calls *)

(** X2. Over a non-empty pool whose targets are all live, the first [k]
    selections after construction, for every [k] up to the largest int,
    return the pool in construction order, over and over; they return it
    whatever number of loop iterations is allowed (the loop body is never
    entered), and the counter counts the selections. *)
Theorem live_pool_rotates_for_every_number_of_calls
    (arch : GOARCH) (port0 : string) (srv : list Server) (fuel k : nat) :
  srv <> [] -> allAlive srv -> Z.of_nat k <= GoInt.maxInt arch ->
  selections arch fuel k (NewLoadBalancer port0 srv)
  = (withCounter (NewLoadBalancer port0 srv) (Z.of_nat k),
     Ret (take k (cycle k srv))).
Proof.
  intros Hne Hall Hk.
  destruct (selections_allAlive_counter arch fuel k (NewLoadBalancer port0 srv))
    as [r Hr]; try done.
  pose proof (selections_new_sound arch fuel port0 srv k _ r Hr) as ->.
  rewrite Hr. by rewrite liveTargets_allAlive.
Qed.

Lemma live_pool_rotates_for_every_number_of_calls_witness :
  selections arch32 0 5 (NewLoadBalancer "8080" [A; B])
  = (withCounter (NewLoadBalancer "8080" [A; B]) 5, Ret [A; B; A; B; A]).
Proof.
  apply (live_pool_rotates_for_every_number_of_calls arch32 "8080" [A; B] 0 5).
  - discriminate.
  - repeat constructor.
  - vm_compute. discriminate.
Defined.

(** ** A pool of one target *)

Lemma serverAt_single s c : serverAt [s] c = Ret s.
Proof.
  unfold serverAt, sliceIndex. simpl len. simpl (_ =? _).
  by rewrite Z.rem_1_r.
Qed.

(** X3. A pool made of one live target never fails: in every state of the
    router, whatever the value of the counter, a selection returns that
    target, and so do any number of selections in a row. The wrap-around
    of the counter does not affect such a pool. *)
Theorem single_live_target_is_always_selected
    (arch : GOARCH) (fuel : nat) (lb : LoadBalancer) (s : Server) :
  servers lb = [s] -> IsAlive s = true ->
  getNextAvailableServer arch fuel lb
  = (withCounter lb (GoInt.incr arch (roundRobinCounter lb)), Ret s)
  /\ forall k,
       selections arch fuel k lb
       = (withCounter lb (GoInt.advance arch (roundRobinCounter lb) k),
          Ret (replicate k s)).
Proof.
  intros Hsrv Hs.
  assert (forall lb0, servers lb0 = [s] ->
            getNextAvailableServer arch fuel lb0
            = (withCounter lb0 (GoInt.incr arch (roundRobinCounter lb0)), Ret s))
    as Hone.
  { intros lb0 H0. rewrite getNextAvailableServer_eq, H0, serverAt_single.
    by rewrite skipDead_alive. }
  split; [by apply Hone|].
  intros k. revert lb Hsrv. induction k as [|k IH]; intros lb Hsrv.
  - simpl. by rewrite withCounter_same.
  - rewrite selections_S, Hone by done.
    rewrite IH by done. rewrite GoIntFacts.advance_S. reflexivity.
Qed.

Lemma single_live_target_is_always_selected_witness :
  getNextAvailableServer arch32 0
    (withCounter (NewLoadBalancer "8080" [A]) (GoInt.minInt arch32 + 5))
  = (withCounter (NewLoadBalancer "8080" [A]) (GoInt.minInt arch32 + 6), Ret A).
Proof.
  exact (proj1 (single_live_target_is_always_selected arch32 0
                  (withCounter (NewLoadBalancer "8080" [A]) (GoInt.minInt arch32 + 5))
                  A eq_refl eq_refl)).
Defined.

(** ** Panics *)

(** X4. A panic of the selection is permanent: the router is left with a
    counter at which the indexing expression panics, so that every later
    selection panics in the same way without moving the counter, and every
    later request ends in that panic with nothing printed or forwarded. *)
Theorem selection_panic_is_permanent
    (arch : GOARCH) (fuel : nat) (lb lb' : LoadBalancer) (e : runtimeError) :
  getNextAvailableServer arch fuel lb = (lb', Panic e) ->
  forall fuel' rw req w,
    getNextAvailableServer arch fuel' lb' = (lb', Panic e)
    /\ serveProxy arch fuel' rw req (lb', w) = ((lb', w), Panic e).
Proof.
  intros Hrun fuel' rw req w.
  apply getNextAvailableServer_inv in Hrun as (j & _ & _ & -> & Hpanic).
  assert (getNextAvailableServer arch fuel'
            (withCounter lb (GoInt.advance arch (roundRobinCounter lb) j))
          = (withCounter lb (GoInt.advance arch (roundRobinCounter lb) j), Panic e))
    as Hagain.
  { rewrite getNextAvailableServer_eq. simpl. by rewrite Hpanic. }
  split; [done|].
  unfold serveProxy. unfold_monad. simpl. by rewrite Hagain.
Qed.

Lemma selection_panic_is_permanent_witness :
  getNextAvailableServer arch32 0
    (withCounter (NewLoadBalancer "8080" [A_down; B_down]) (GoInt.minInt arch32 + 1))
  = (withCounter (NewLoadBalancer "8080" [A_down; B_down]) (GoInt.minInt arch32 + 1),
     Panic IndexOutOfRange)
  /\ serveProxy arch32 0 7%nat {| Method := "GET"; Path := "/"; Body := "" |}
       (withCounter (NewLoadBalancer "8080" [A_down; B_down]) (GoInt.minInt arch32 + 1), [])
     = ((withCounter (NewLoadBalancer "8080" [A_down; B_down]) (GoInt.minInt arch32 + 1), []),
        Panic IndexOutOfRange).
Proof.
  apply (selection_panic_is_permanent arch32 3
           (withCounter (NewLoadBalancer "8080" [A_down; B_down]) (GoInt.maxInt arch32 - 1))).
  reflexivity.
Defined.

(** ** Overflow, for every pool *)

Lemma reachable_minInt arch port0 srv :
  srv <> [] -> allAlive srv ->
  reachable arch port0 srv (withCounter (NewLoadBalancer port0 srv) (GoInt.minInt arch)).
Proof.
  intros Hne Hall.
  pose proof (reach_call arch port0 srv 0 _ (reachable_maxInt arch port0 srv Hne Hall))
    as Hreach.
  destruct (getNextAvailableServer_allAlive arch 0
              (withCounter (NewLoadBalancer port0 srv) (GoInt.maxInt arch)))
    as (s & _ & Hrun); [done|done|apply Z.lt_le_incl, maxInt_pos|].
  rewrite Hrun in Hreach. cbn [fst roundRobinCounter withCounter] in Hreach.
  by rewrite GoIntFacts.incr_maxInt in Hreach.
Qed.

Lemma panics_at_negative_index arch lb fuel :
  servers lb <> [] -> Z.rem (roundRobinCounter lb) (len (servers lb)) < 0 ->
  getNextAvailableServer arch fuel lb = (lb, Panic IndexOutOfRange).
Proof.
  intros Hne Hneg. rewrite getNextAvailableServer_eq.
  by rewrite serverAt_negative.
Qed.

(** X5. Every pool of two or more live targets runs into the overflow: a
    router state is reached from construction, by selections that all
    return, in which the counter is MinInt or MinInt + 1 and its remainder
    by the number of targets is negative; there every selection panics
    with an index out of range. *)
Theorem live_pool_of_two_or_more_overflows
    (arch : GOARCH) (port0 : string) (srv : list Server) :
  allAlive srv -> 2 <= len srv ->
  exists lb,
    reachable arch port0 srv lb
    /\ (roundRobinCounter lb = GoInt.minInt arch
        \/ roundRobinCounter lb = GoInt.minInt arch + 1)
    /\ Z.rem (roundRobinCounter lb) (len srv) < 0
    /\ forall fuel,
         getNextAvailableServer arch fuel lb = (lb, Panic IndexOutOfRange).
Proof.
  intros Hall Hlen.
  assert (srv <> []) as Hne by (intros ->; unfold len in Hlen; simpl in Hlen; lia).
  pose proof (reachable_minInt arch port0 srv Hne Hall) as Hmin.
  pose proof (GoIntFacts.half_pos arch) as Hhalf.
  destruct (Z_lt_ge_dec (Z.rem (GoInt.minInt arch) (len srv)) 0) as [Hneg|Hpos].
  - eexists. split; [exact Hmin|]. split; [by left|]. split; [done|].
    intros fuel. by apply panics_at_negative_index.
  - assert (GoInt.half arch `mod` len srv = 0) as Hdiv.
    { unfold GoInt.minInt in Hpos. rewrite Z.rem_opp_l in Hpos by lia.
      rewrite Z.rem_mod_nonneg in Hpos by lia.
      pose proof (Z.mod_pos_bound (GoInt.half arch) (len srv)). lia. }
    assert (Z.rem (GoInt.minInt arch) (len srv) = 0) as Hzero.
    { unfold GoInt.minInt. rewrite Z.rem_opp_l by lia.
      rewrite Z.rem_mod_nonneg by lia. lia. }
    assert (Z.rem (GoInt.minInt arch + 1) (len srv) < 0) as Hneg.
    { replace (GoInt.minInt arch + 1) with (- GoInt.maxInt arch)
        by (unfold GoInt.minInt, GoInt.maxInt; lia).
      rewrite Z.rem_opp_l by lia.
      rewrite Z.rem_mod_nonneg by (pose proof (maxInt_pos arch); lia).
      pose proof (Z.mod_pos_bound (GoInt.maxInt arch) (len srv)).
      assert (GoInt.maxInt arch `mod` len srv <> 0); [|lia].
      intros Hz. apply Z.mod_divide in Hz; [|lia]. apply Z.mod_divide in Hdiv; [|lia].
      assert ((len srv | 1)) as H1.
      { replace 1 with (GoInt.half arch - GoInt.maxInt arch)
          by (unfold GoInt.maxInt; lia).
        by apply Z.divide_sub_r. }
      apply Z.divide_1_r_nonneg in H1; lia. }
    destruct (lookup_lt_is_Some_2 srv 0) as [s Hs].
    { unfold len in Hlen. lia. }
    pose proof (reach_call arch port0 srv 0 _ Hmin) as Hreach.
    rewrite getNextAvailableServer_eq in Hreach.
    cbn [servers roundRobinCounter withCounter NewLoadBalancer] in Hreach.
    assert (serverAt srv (GoInt.minInt arch) = Ret s) as Hat.
    { apply serverAt_Ret. rewrite Hzero. done. }
    rewrite Hat in Hreach. rewrite skipDead_alive in Hreach
      by exact (Forall_lookup_1 (fun s => IsAlive s = true) srv _ s Hall Hs).
    cbn [fst roundRobinCounter withCounter] in Hreach.
    rewrite GoIntFacts.incr_small in Hreach
      by (pose proof (maxInt_pos arch); pose proof (minInt_neg arch); lia).
    eexists. split; [exact Hreach|]. split; [by right|]. split; [done|].
    intros fuel. by apply panics_at_negative_index.
Qed.

Lemma live_pool_of_two_or_more_overflows_witness :
  exists lb,
    reachable arch64 "8080" [A; B] lb
    /\ (roundRobinCounter lb = GoInt.minInt arch64
        \/ roundRobinCounter lb = GoInt.minInt arch64 + 1)
    /\ Z.rem (roundRobinCounter lb) (len [A; B]) < 0
    /\ forall fuel,
         getNextAvailableServer arch64 fuel lb = (lb, Panic IndexOutOfRange).
Proof.
  apply (live_pool_of_two_or_more_overflows arch64 "8080" [A; B]).
  - repeat constructor.
  - vm_compute. discriminate.
Defined.

(** ** Fairness from any state *)

Lemma fmap_cycle {X Y} (f : X -> Y) m (l : list X) :
  f <$> cycle m l = cycle m (f <$> l).
Proof. induction m as [|m IH]; simpl; [done|]. by rewrite fmap_app, IH. Qed.

(** X6. Round robin is fair from every state, not only from construction:
    over a pool whose targets are all live, with a non-negative counter at
    least [len(targets)] below the largest int, [len(targets)] consecutive
    selections return the pool rotated to start at index
    [cursor mod len(targets)], hence every target exactly once. *)
Theorem every_window_of_selections_is_a_rotation
    (arch : GOARCH) (fuel : nat) (lb : LoadBalancer) :
  let c := roundRobinCounter lb in
  let srv := servers lb in
  srv <> [] -> allAlive srv -> 0 <= c -> c + len srv <= GoInt.maxInt arch ->
  selections arch fuel (length srv) lb
  = (withCounter lb (c + len srv), Ret (scanFrom srv (c `mod` len srv)))
  /\ scanFrom srv (c `mod` len srv) ≡ₚ srv.
Proof.
  intros c srv Hne Hall Hc Hmax. split; [|apply rotate_Permutation].
  pose proof (len_pos srv Hne) as Hpos.
  destruct (selections_allAlive_counter arch fuel (length srv) lb) as [r Hr];
    try done.
  rewrite Hr. fold c. do 2 f_equal.
  pose proof (Z.mod_pos_bound c (len srv) Hpos) as Hb.
  assert (Z.to_nat (c `mod` len srv) + length srv
          <= S (length srv) * length srv)%nat as Hfit.
  { assert (Z.to_nat (c `mod` len srv) < length srv)%nat by (unfold len in *; lia).
    simpl. assert (length srv <= length srv * length srv)%nat; [|lia].
    destruct (length srv); simpl; lia. }
  apply (selections_tape_sound arch fuel (S (length srv)) (length srv) lb
           (Z.to_nat (c `mod` len srv))) in Hr.
  - rewrite Hr. fold srv. rewrite liveTargets_allAlive.
    + rewrite tape_window; [|done|exact Hfit].
      rewrite Z2Nat.id by lia. by rewrite Z.mod_mod by lia.
    + apply Forall_drop, Forall_cycle, Hall.
  - fold c. split; [pose proof (minInt_neg arch)|]; lia.
  - fold c srv. intros _. rewrite Z2Nat.id by lia.
    rewrite Z.rem_mod_nonneg by lia. by rewrite Z.mod_mod by lia.
  - fold srv. assert (Z.to_nat (c `mod` len srv) < length srv)%nat
      by (unfold len in *; lia).
    simpl. lia.
Qed.

Lemma every_window_of_selections_is_a_rotation_witness :
  selections arch64 0 3 (withCounter (NewLoadBalancer "8080" [A; B; C]) 7)
  = (withCounter (NewLoadBalancer "8080" [A; B; C]) 10, Ret [B; C; A])
  /\ [B; C; A] ≡ₚ [A; B; C].
Proof.
  refine (every_window_of_selections_is_a_rotation arch64 0
            (withCounter (NewLoadBalancer "8080" [A; B; C]) 7) _ _ _ _).
  - discriminate.
  - repeat constructor.
  - discriminate.
  - vm_compute. discriminate.
Defined.

(** ** Startup *)

Lemma main_startup_cases url_Parse DefaultTransport w :
  match url_Parse "https://www.google.com",
        url_Parse "https://www.bing.com",
        url_Parse "https://www.duckduckgo.com" with
  | (_, Some e), _, _
  | (_, None), (_, Some e), _
  | (_, None), (_, None), (_, Some e) =>
      main_startup url_Parse DefaultTransport w
      = (w ++ [Stdout ("error: " +:+ e +:+ newline)], Exit 1)
  | (u1, None), (u2, None), (u3, None) =>
      main_startup url_Parse DefaultTransport w
      = (w ++ [listeningNote], Ret (mainRouter DefaultTransport u1 u2 u3))
  end.
Proof.
  unfold main_startup, newSimpleServer.
  destruct (url_Parse "https://www.google.com") as [u1 [e1|]]; [done|].
  destruct (url_Parse "https://www.bing.com") as [u2 [e2|]]; [done|].
  destruct (url_Parse "https://www.duckduckgo.com") as [u3 [e3|]]; done.
Qed.

(** X7. What [main] prints before it listens. When the three upstream
    addresses parse, the only output is the line announcing the port, and
    the router is built over the three targets in the order of the source.
    Otherwise the only output is the error of the first address, in that
    order, that fails to parse, the process exits with status 1, and the
    port is never announced: an address after the failing one is not
    reported even if it fails too. *)
Theorem main_startup_output
    (url_Parse : string -> option URL * option string)
    (DefaultTransport : URL -> Request -> option Response) (w : world) :
  (forall u1 u2 u3,
     url_Parse "https://www.google.com" = (u1, None) ->
     url_Parse "https://www.bing.com" = (u2, None) ->
     url_Parse "https://www.duckduckgo.com" = (u3, None) ->
     main_startup url_Parse DefaultTransport w
     = (w ++ [listeningNote], Ret (mainRouter DefaultTransport u1 u2 u3)))
  /\ (forall before a after u e,
        upstreams = before ++ a :: after ->
        (forall b, b ∈ before -> (url_Parse b).2 = None) ->
        url_Parse a = (u, Some e) ->
        main_startup url_Parse DefaultTransport w
        = (w ++ [Stdout ("error: " +:+ e +:+ newline)], Exit 1)).
Proof.
  pose proof (main_startup_cases url_Parse DefaultTransport w) as Hcases.
  split.
  - intros u1 u2 u3 H1 H2 H3. by rewrite H1, H2, H3 in Hcases.
  - intros before a after u e Hsplit Hbefore Ha. unfold upstreams in Hsplit.
    destruct before as [|b1 [|b2 [|b3 before]]]; simplify_eq/=.
    + by rewrite Ha in Hcases.
    + pose proof (Hbefore _ ltac:(left)) as H1.
      destruct (url_Parse "https://www.google.com") as [u1 o1]. simpl in H1. subst o1.
      by rewrite Ha in Hcases.
    + pose proof (Hbefore "https://www.google.com" ltac:(left)) as H1.
      pose proof (Hbefore "https://www.bing.com" ltac:(right; left)) as H2.
      destruct (url_Parse "https://www.google.com") as [u1 o1]. simpl in H1. subst o1.
      destruct (url_Parse "https://www.bing.com") as [u2 o2]. simpl in H2. subst o2.
      by rewrite Ha in Hcases.
    + by destruct before.
Qed.

Lemma main_startup_output_witness :
  main_startup parsePicky (fun _ _ => None) []
  = ([Stdout ("error: cannot parse https://www.bing.com" +:+ newline)], Exit 1).
Proof.
  apply (proj2 (main_startup_output parsePicky (fun _ _ => None) [])
           ["https://www.google.com"] "https://www.bing.com"
           ["https://www.duckduckgo.com"] None "cannot parse https://www.bing.com").
  - reflexivity.
  - intros b Hb. apply list_elem_of_singleton in Hb as ->. reflexivity.
  - reflexivity.
Defined.

(** X8. The router [main] builds serves the three upstreams in rotation:
    whatever [url.Parse] returned for them, once startup has succeeded the
    first [k] selections, for every [k] up to the largest int, return the
    targets whose addresses are google, bing, duckduckgo, google, ... and
    they return with no loop iteration at all, a [simpleServer] being
    always live. *)
Theorem main_router_rotates_over_upstreams
    (url_Parse : string -> option URL * option string)
    (DefaultTransport : URL -> Request -> option Response)
    (arch : GOARCH) (w : world) (lb : LoadBalancer) (k : nat) :
  (main_startup url_Parse DefaultTransport w).2 = Ret lb ->
  Z.of_nat k <= GoInt.maxInt arch ->
  exists r,
    selections arch 0 k lb = (withCounter lb (Z.of_nat k), Ret r)
    /\ Address <$> r = take k (cycle k upstreams).
Proof.
  intros Hstart Hk.
  pose proof (main_startup_cases url_Parse DefaultTransport w) as Hcases.
  destruct (url_Parse "https://www.google.com") as [u1 [e1|]];
    [rewrite Hcases in Hstart; done|].
  destruct (url_Parse "https://www.bing.com") as [u2 [e2|]];
    [rewrite Hcases in Hstart; done|].
  destruct (url_Parse "https://www.duckduckgo.com") as [u3 [e3|]];
    [rewrite Hcases in Hstart; done|].
  rewrite Hcases in Hstart. simpl in Hstart. simplify_eq.
  assert (allAlive (servers (mainRouter DefaultTransport u1 u2 u3))) as Hall
    by (repeat constructor).
  destruct (selections_allAlive_counter arch 0 k (mainRouter DefaultTransport u1 u2 u3))
    as [r Hr]; try done.
  exists r. split; [exact Hr|].
  apply selections_new_sound in Hr. rewrite Hr.
  rewrite liveTargets_allAlive by done.
  by rewrite fmap_take, fmap_cycle.
Qed.

Lemma main_router_rotates_over_upstreams_witness :
  let lb := mainRouter (fun _ _ => None)
              (Some {| Scheme := "https"; Host := "https://www.google.com" |})
              (Some {| Scheme := "https"; Host := "https://www.bing.com" |})
              (Some {| Scheme := "https"; Host := "https://www.duckduckgo.com" |}) in
  exists r,
    selections arch64 0 4 lb = (withCounter lb 4, Ret r)
    /\ Address <$> r
       = ["https://www.google.com"; "https://www.bing.com";
          "https://www.duckduckgo.com"; "https://www.google.com"].
Proof.
  intros lb.
  apply (main_router_rotates_over_upstreams parseSample (fun _ _ => None)
           arch64 [] lb 4).
  - reflexivity.
  - vm_compute. discriminate.
Defined.

(** ** Requests one after the other *)

(** One request whose selection returns [t] and whose [Serve] returns:
    the note is printed, [t] serves the request, and the handler returns. *)
Lemma serveProxy_returns arch fuel rw req lb lb' (w : world) (t : Server) :
  getNextAvailableServer arch fuel lb = (lb', Ret t) ->
  (Serve t rw req (w ++ [forwardingNote t])).2 = Ret tt ->
  serveProxy arch fuel rw req (lb, w)
  = ((lb', (Serve t rw req (w ++ [forwardingNote t])).1), Ret tt).
Proof.
  intros Hsel Hret. unfold serveProxy. unfold_monad. simpl. rewrite Hsel.
  unfold emit. unfold_monad. simpl. fold (forwardingNote t).
  destruct (Serve t rw req (w ++ [forwardingNote t])) as [w' o].
  simpl in *. by subst o.
Qed.

Lemma serveRequests_served arch fuel reqs :
  forall lb w (i : nat),
    servers lb <> [] -> allAlive (servers lb) ->
    (forall t rw req w', t ∈ servers lb -> (Serve t rw req w').2 = Ret tt) ->
    roundRobinCounter lb = Z.of_nat i ->
    Z.of_nat (i + length reqs) <= GoInt.maxInt arch ->
    serveRequests arch fuel reqs (lb, w)
    = ((withCounter lb (Z.of_nat (i + length reqs)), served (servers lb) i reqs w),
       Ret tt).
Proof.
  induction reqs as [|[rw req] rest IH]; intros lb w i Hne Hall Hret Hc Hmax.
  - simpl. by rewrite Nat.add_0_r, <- Hc, withCounter_same.
  - destruct (getNextAvailableServer_allAlive arch fuel lb Hne Hall)
      as (t & Ht & Hsel); [lia|].
    rewrite Hc in Ht, Hsel.
    assert (Z.to_nat (Z.of_nat i `mod` len (servers lb))
            = (i `mod` length (servers lb))%nat) as Hidx.
    { unfold len. rewrite <- Nat2Z.inj_mod. apply Nat2Z.id. }
    rewrite Hidx in Ht.
    pose proof (minInt_neg arch). simpl length in Hmax.
    rewrite GoIntFacts.incr_small in Hsel by lia.
    cbn [serveRequests served]. unfold handleRedirect.
    unfold mbind at 1, M_bind, bind.
    rewrite (serveProxy_returns arch fuel rw req lb _ w t Hsel)
      by (apply Hret; by eapply list_elem_of_lookup_2).
    rewrite (IH _ _ (S i)); simpl; try done; try lia.
    rewrite Ht. unfold withCounter. simpl.
    do 3 f_equal. lia.
Qed.

(** X9. Requests served one after the other by a router constructed over
    live targets whose [Serve] returns are handed out in rotation: for
    request number [i] the note naming target [i mod len(targets)] is
    printed and then that target's [Serve] is called, once, with the
    request's own writer and request; nothing else touches the world, and
    the counter ends at the number of requests. What [Serve] does with the
    request is the target's business and is not constrained here. *)
Theorem requests_in_sequence_are_served_in_rotation
    (arch : GOARCH) (fuel : nat) (port0 : string) (pool : list Server)
    (reqs : list (ResponseWriter * Request)) (w : world) :
  pool <> [] -> allAlive pool ->
  (forall t rw req w', t ∈ pool -> (Serve t rw req w').2 = Ret tt) ->
  Z.of_nat (length reqs) <= GoInt.maxInt arch ->
  serveRequests arch fuel reqs (NewLoadBalancer port0 pool, w)
  = ((withCounter (NewLoadBalancer port0 pool) (Z.of_nat (length reqs)),
      served pool 0 reqs w),
     Ret tt).
Proof.
  intros Hne Hall Hret Hmax.
  by rewrite (serveRequests_served arch fuel reqs _ w 0%nat).
Qed.

Lemma requests_in_sequence_are_served_in_rotation_witness :
  let get := fun path => {| Method := "GET"; Path := path; Body := "" |} in
  serveRequests arch64 0 [(1, get "/x"); (2, get "/y"); (3, get "/z")]%nat
    (NewLoadBalancer "8080" [A; B], [])
  = ((withCounter (NewLoadBalancer "8080" [A; B]) 3,
      [forwardingNote A; Write 1%nat {| StatusCode := 200; Payload := "A" |};
       forwardingNote B; Write 2%nat {| StatusCode := 200; Payload := "B" |};
       forwardingNote A; Write 3%nat {| StatusCode := 200; Payload := "A" |}]),
     Ret tt).
Proof.
  intros get.
  apply (requests_in_sequence_are_served_in_rotation arch64 0 "8080" [A; B]
           [(1, get "/x"); (2, get "/y"); (3, get "/z")]%nat []).
  - discriminate.
  - repeat constructor.
  - intros t rw req w' Ht.
    apply list_elem_of_In in Ht. simpl in Ht.
    destruct Ht as [<-|[<-|[]]]; reflexivity.
  - vm_compute. discriminate.
Defined.

(** ** Goroutines under every schedule *)

Section Schedules.

Import Goroutines.
Variable arch : GOARCH.
Variable srv : list Server.

Lemma step_pointOf c p :
  pointOf srv p -> pointOf srv (step arch srv c p).2.
Proof.
  destruct p as [|s| |tmp|s|s tmp|o]; simpl; try done.
  - intros _. destruct (serverAt srv c) as [s| | |] eqn:Hs; simpl; try done.
    apply serverAt_Ret in Hs as (_ & _ & Hs). by eapply list_elem_of_lookup_2.
  - intros Hs. by destruct (IsAlive s) eqn:Ha.
Qed.

Lemma schedule1_pointOf i st :
  Forall (pointOf srv) st.2 -> Forall (pointOf srv) (schedule1 arch srv i st).2.
Proof.
  intros Hall. unfold schedule1.
  destruct (st.2 !! i) as [p|] eqn:Hp; [|done].
  pose proof (step_pointOf st.1 p (Forall_lookup_1 _ _ _ _ Hall Hp)) as Hstep.
  destruct (step arch srv st.1 p) as [c' p']. simpl in *.
  by apply Forall_insert.
Qed.

Lemma run_pointOf sched : forall st,
  Forall (pointOf srv) st.2 -> Forall (pointOf srv) (run arch srv sched st).2.
Proof.
  induction sched as [|i sched IH]; intros st Hall; [done|].
  simpl. apply IH. by apply schedule1_pointOf.
Qed.

End Schedules.

(** X10. The race on the counter never makes a call return a wrong
    target: whatever the number of goroutines, the schedule and the value
    the counter starts from, a goroutine that has returned holds a target
    of the pool that is live. *)
Theorem no_schedule_returns_a_dead_target
    (arch : GOARCH) (srv : list Server) (sched : list nat)
    (K : nat) (c : Z) (i : nat) (s : Server) :
  (Goroutines.run arch srv sched (c, replicate K Goroutines.AtIndex)).2 !! i
  = Some (Goroutines.Ended (Ret s)) ->
  s ∈ srv /\ IsAlive s = true.
Proof.
  intros Hi.
  pose proof (run_pointOf arch srv sched (c, replicate K Goroutines.AtIndex)) as Hall.
  exact (Forall_lookup_1 _ _ _ _ (Hall ltac:(by apply Forall_replicate)) Hi).
Qed.

Lemma no_schedule_returns_a_dead_target_witness :
  C ∈ [A_down; B_down; C] /\ IsAlive C = true.
Proof.
  apply (no_schedule_returns_a_dead_target arch64 [A_down; B_down; C]
           (Goroutines.racy ++ Goroutines.racy ++ Goroutines.racy ++ Goroutines.racy)
           3 0 1%nat C).
  reflexivity.
Defined.

Section Race.

Import Goroutines.
Variable arch : GOARCH.
Variable srv : list Server.
Variable c0 : Z.
Variable K : nat.
Hypothesis srv_nonempty : srv <> [].
Hypothesis srv_alive : allAlive srv.
Hypothesis c0_nonneg : 0 <= c0.
Hypothesis c0_room : c0 + Z.of_nat K <= GoInt.maxInt arch.

Lemma completed_cons p ps :
  completed (p :: ps) = ((if hasReturned p then 1 else 0) + completed ps)%nat.
Proof. unfold completed. simpl. fold (hasReturned p). by destruct (hasReturned p). Qed.

Lemma completed_insert ps : forall i p p',
  ps !! i = Some p ->
  (completed (<[i := p']> ps) + (if hasReturned p then 1 else 0)
   = completed ps + (if hasReturned p' then 1 else 0))%nat.
Proof.
  induction ps as [|q ps IH]; intros [|i] p p' Hp; simplify_eq/=.
  - rewrite !completed_cons. lia.
  - rewrite !completed_cons. specialize (IH i p p' Hp). lia.
Qed.

Lemma completed_lt ps : forall i p,
  ps !! i = Some p -> hasReturned p = false -> (completed ps < length ps)%nat.
Proof.
  assert (forall l, (completed l <= length l)%nat) as Hle.
  { induction l as [|q l IHl]; [done|]. rewrite completed_cons. simpl.
    destruct (hasReturned q); lia. }
  induction ps as [|q ps IH]; intros [|i] p Hp Hno; simplify_eq/=.
  - rewrite completed_cons, Hno. specialize (Hle ps). lia.
  - rewrite completed_cons. specialize (IH i p Hp Hno).
    destruct (hasReturned q); lia.
Qed.

Lemma raceOf_mono e e' p : (e <= e')%nat -> raceOf srv c0 e p -> raceOf srv c0 e' p.
Proof.
  intros He. destruct p as [|s| |tmp|s|s tmp|[s| | |]]; simpl; try done.
  intros [Hs Htmp]. split; [done|lia].
Qed.

Lemma racing_start : racing srv c0 K (c0, replicate K AtIndex).
Proof.
  assert (forall n, completed (replicate n AtIndex) = 0%nat) as Hz.
  { induction n as [|n IH]; [done|]. simpl. by rewrite completed_cons. }
  unfold racing. simpl. rewrite Hz, length_replicate.
  split; [done|split; [by apply Forall_replicate|split; lia]].
Qed.

Lemma racing_schedule1 i st :
  racing srv c0 K st -> racing srv c0 K (schedule1 arch srv i st).
Proof.
  destruct st as [c ps]. intros (Hlen & Hall & Hc & Hlow). simpl in *.
  unfold schedule1. simpl.
  destruct (ps !! i) as [p|] eqn:Hp; [|done].
  pose proof (Forall_lookup_1 _ _ _ _ Hall Hp) as Hrace.
  destruct p as [|s| |tmp|s|s tmp|[s| | |]]; simpl in Hrace; try done; simpl.
  - (* reading the counter and indexing *)
    destruct (serverAt_nonneg srv c srv_nonempty ltac:(lia)) as (s & -> & Hs).
    apply list_elem_of_lookup_2 in Hs.
    pose proof (completed_insert ps i AtIndex (AtTest s) Hp) as Hcount. simpl in Hcount.
    unfold racing. simpl. rewrite length_insert.
    replace (completed (<[i:=AtTest s]> ps)) with (completed ps) by lia.
    split; [done|split; [by apply Forall_insert|done]].
  - (* the loop condition *)
    rewrite (proj1 (Forall_forall _ _) srv_alive s Hrace).
    pose proof (completed_insert ps i (AtTest s) (AtExitLoad s) Hp) as Hcount.
    simpl in Hcount.
    unfold racing. simpl. rewrite length_insert.
    replace (completed (<[i:=AtExitLoad s]> ps)) with (completed ps) by lia.
    split; [done|split; [by apply Forall_insert|done]].
  - (* the read of the last increment *)
    pose proof (completed_insert ps i (AtExitLoad s) (AtExitStore s c) Hp) as Hcount.
    simpl in Hcount.
    unfold racing. simpl. rewrite length_insert.
    replace (completed (<[i:=AtExitStore s c]> ps)) with (completed ps) by lia.
    split; [done|split; [by apply Forall_insert|done]].
  - (* the write of the last increment *)
    destruct Hrace as [Hs Htmp].
    pose proof (completed_insert ps i (AtExitStore s tmp) (Ended (Ret s)) Hp) as Hcount.
    simpl in Hcount.
    pose proof (completed_lt ps i _ Hp eq_refl) as Hlt.
    pose proof (minInt_neg arch).
    rewrite GoIntFacts.incr_small by lia.
    unfold racing. simpl. rewrite length_insert.
    replace (completed (<[i:=Ended (Ret s)]> ps)) with (S (completed ps)) by lia.
    split; [done|split; [|lia]].
    apply Forall_insert; [|done].
    eapply Forall_impl; [exact Hall|]. intros q. apply raceOf_mono. lia.
  - (* a goroutine that has returned stays where it is *)
    rewrite list_insert_id by done. done.
Qed.

Lemma racing_run sched : forall st,
  racing srv c0 K st -> racing srv c0 K (run arch srv sched st).
Proof.
  induction sched as [|i sched IH]; intros st Hst; [done|].
  simpl. apply IH. by apply racing_schedule1.
Qed.

End Race.

(** X11. What the race can and cannot do on a pool of live targets. [K]
    goroutines start a selection each, the counter being [c0 >= 0] with
    room for [K] increments. Under every schedule: no goroutine panics or
    enters the loop body, a goroutine that has ended has returned a target
    of the pool, and once [e >= 1] of them have returned the counter lies
    between [c0 + 1] and [c0 + e]. When all have returned the counter has
    advanced by at least 1 and at most [K]: increments can be lost, up to
    [K - 1] of them, never invented. *)
Theorem racing_selections_on_a_live_pool
    (arch : GOARCH) (srv : list Server) (sched : list nat) (K : nat) (c0 : Z) :
  srv <> [] -> allAlive srv -> 0 <= c0 -> c0 + Z.of_nat K <= GoInt.maxInt arch ->
  let final := Goroutines.run arch srv sched (c0, replicate K Goroutines.AtIndex) in
  let e := Goroutines.completed final.2 in
  (forall i o, final.2 !! i = Some (Goroutines.Ended o) ->
               exists s, o = Ret s /\ s ∈ srv)
  /\ (forall i, final.2 !! i <> Some Goroutines.AtLoopLoad)
  /\ (e <= K)%nat
  /\ c0 <= final.1 <= c0 + Z.of_nat e
  /\ ((1 <= e)%nat -> c0 + 1 <= final.1).
Proof.
  intros Hne Hall Hc0 Hroom final e.
  pose proof (racing_run arch srv c0 K Hne Hall Hc0 Hroom sched _
                (racing_start srv c0 K)) as (Hlen & Hrace & Hc & Hlow).
  fold final in Hlen, Hrace, Hc, Hlow. fold e in Hrace, Hc, Hlow.
  split; [|split; [|split; [|split]]]; try done.
  - intros i o Hi. pose proof (Forall_lookup_1 _ _ _ _ Hrace Hi) as Ho.
    destruct o as [s| | |]; try done. by exists s.
  - intros i Hi. exact (Forall_lookup_1 _ _ _ _ Hrace Hi).
  - rewrite <- Hlen. unfold e, Goroutines.completed.
    apply List.filter_length_le.
Qed.

Lemma racing_selections_on_a_live_pool_witness :
  let final := Goroutines.run arch64 [A; B] Goroutines.racy
                 (0, replicate 3 Goroutines.AtIndex) in
  let e := Goroutines.completed final.2 in
  (forall i o, final.2 !! i = Some (Goroutines.Ended o) ->
               exists s, o = Ret s /\ s ∈ [A; B])
  /\ (forall i, final.2 !! i <> Some Goroutines.AtLoopLoad)
  /\ (e <= 3)%nat
  /\ 0 <= final.1 <= 0 + Z.of_nat e
  /\ ((1 <= e)%nat -> 0 + 1 <= final.1).
Proof.
  apply (racing_selections_on_a_live_pool arch64 [A; B] Goroutines.racy 3 0).
  - discriminate.
  - repeat constructor.
  - discriminate.
  - vm_compute. discriminate.
Defined.

(** ** More on selection and routing *)

(** X12. Dead targets are skipped whatever their number and position: over
    a pool with at least one live target, the targets that consecutive
    selections return from construction on are the live targets, in
    construction order, over and over. Every run of [k] selections that
    returns has returned them; and the run does return them when the loop
    is given [len(targets) - 1] iterations and [k * len(targets)] does not
    exceed the largest int. *)
Theorem dead_targets_are_skipped_in_every_pool
    (arch : GOARCH) (port0 : string) (srv : list Server) (fuel k : nat) :
  (forall lb' r,
     selections arch fuel k (NewLoadBalancer port0 srv) = (lb', Ret r) ->
     r = take k (cycle k (liveTargets srv)))
  /\ (someAlive srv -> (length srv <= S fuel)%nat ->
      Z.of_nat k * len srv <= GoInt.maxInt arch ->
      exists lb',
        selections arch fuel k (NewLoadBalancer port0 srv)
        = (lb', Ret (take k (cycle k (liveTargets srv))))).
Proof.
  split.
  - intros lb' r Hrun. by eapply selections_new_sound.
  - intros Hsome Hfuel Hmax.
    destruct (selections_new_run arch fuel port0 srv k Hsome Hmax Hfuel)
      as (c' & _ & Hrun).
    by eexists.
Qed.

Lemma dead_targets_are_skipped_in_every_pool_witness :
  exists lb',
    selections arch32 3 5 (NewLoadBalancer "8080" [A_down; B; B_down; C])
    = (lb', Ret [B; C; B; C; B]).
Proof.
  apply (proj2 (dead_targets_are_skipped_in_every_pool arch32 "8080"
                  [A_down; B; B_down; C] 3 5)).
  - apply Exists_exists. exists B. split; [repeat constructor|reflexivity].
  - simpl. lia.
  - vm_compute. discriminate.
Defined.

(** X13. A request is never handed to a target that is not live: whatever
    the pool and the state of the router, either [serveProxy] leaves the
    world as it was (the selection did not return), or what it added is the
    note and the [Serve] of one target of the pool whose [IsAlive] is
    true. *)
Theorem requests_only_reach_live_targets
    (arch : GOARCH) (fuel : nat) (rw : ResponseWriter) (req : Request)
    (lb : LoadBalancer) (w : world) :
  (serveProxy arch fuel rw req (lb, w)).1.2 = w
  \/ exists target,
       target ∈ servers lb /\ IsAlive target = true
       /\ (serveProxy arch fuel rw req (lb, w)).1.2
          = (Serve target rw req (w ++ [forwardingNote target])).1.
Proof.
  unfold serveProxy. unfold_monad. simpl.
  destruct (getNextAvailableServer arch fuel lb) as [lb' [target| | |]] eqn:Hsel;
    simpl; try by left.
  right. exists target.
  apply returned_target_is_live in Hsel as [Halive Hin].
  split; [done|split; [done|]].
  unfold emit. unfold_monad. simpl. fold (forwardingNote target).
  by destruct (Serve target rw req _) as [w' o].
Qed.

(** X14. A call of the selection that runs without interference, cut at
    its accesses to the counter, ends as the sequential code does: if the
    call returns or panics, the goroutine reaches, in finitely many steps,
    the same outcome with the same value of the counter. *)
Theorem goroutine_alone_runs_the_sequential_code
    (arch : GOARCH) (fuel : nat) (lb lb' : LoadBalancer) (o : outcome Server) :
  getNextAvailableServer arch fuel lb = (lb', o) -> o <> Spin ->
  exists n,
    Goroutines.alone arch (servers lb) n (roundRobinCounter lb) Goroutines.AtIndex
    = (roundRobinCounter lb', Goroutines.Ended o).
Proof. apply alone_getNextAvailableServer. Qed.

Lemma goroutine_alone_runs_the_sequential_code_witness :
  exists n,
    Goroutines.alone arch64 [A; B_down; C] n 1 Goroutines.AtIndex
    = (3, Goroutines.Ended (Ret C)).
Proof.
  apply (goroutine_alone_runs_the_sequential_code arch64 2
           (withCounter (NewLoadBalancer "8080" [A; B_down; C]) 1)
           (withCounter (NewLoadBalancer "8080" [A; B_down; C]) 3) (Ret C)).
  - reflexivity.
  - discriminate.
Defined.
